(** * The question pipeline of the image solver page

    A shallow embedding of the two pages of [images.js] and of the
    modal of [question-modal.js].

    The processing page: the rate-limited call queue
    ([rateLimitedAPICall], [processAPIQueue]), the service client
    ([callTogetherAPI], [extract], [solve]), the scheduler
    ([processQuestion], [fillBuffer], [initializeProcessing]), the
    registry built by [renderQuestionButtons], the key form
    ([saveAPIKey], [initializeAPIKeyManagement]) and the details of
    a question ([showQuestionDetails], the class [QuestionModal]).

    The capture page: the numbering of images
    ([incrementQuestionNumber]), the handlers that store them
    ([addImageToStorage] and the listeners of the file input, the
    camera and the clear button) and the gallery ([updateGallery]).

    JavaScript runs a page on one thread.  An [async] function runs
    synchronously up to its next [await]; what is left of it is resumed
    by the event loop once the awaited promise has settled.  The
    embedding therefore cuts every [async] function at its [await]s:
    each piece is a function on the page state, a suspended activation
    is a value stored in that state, and the event loop is a step
    function that resumes one activation per step.

    Continuations of settled promises run from the microtask queue in
    the order they were queued, and before the next timer, response
    or click is taken.  The chain of promises from [resolve] in the
    drain loop through [callTogetherAPI] and [extract] or [solve] up
    to the [await] in [processQuestion] is taken in one step: nothing
    else can run in between.

    A text is the sequence of its UTF-16 code units, and the embedding
    keeps to the code units below 256.  Local storage holds a
    well-formed list of images.  Of the document the embedding keeps
    what the scripts read back and what the properties speak of; the
    calls that only write to it are left out, [updateButtonState]
    among them, whose selector is taken to be well formed (it is
    when the question number holds no double quote, backslash or
    line break). *)

From stdpp Require Import gmap strings list fin_maps pretty.
From Stdlib Require Import ZArith Lia Ascii.

Open Scope Z_scope.

(** ** Data *)

(** The strings stored in [questionStates].  The source names the
    state in which extraction is running ['extracted']; the button
    label for it reads EXTRACTING. *)
Inductive QState := unsolved | extracted | solving | solved.

#[global] Instance QState_eq_dec : EqDecision QState.
Proof. solve_decision. Defined.

(** An entry of the [savedImages] array in local storage.  A missing
    [questionNumber] is [None]. *)
Record Image := { dataUrl : string; questionNumber : option string }.

(** A value of [questionData]; [null] is [None]. *)
Record QData := { extractedText : option string; solvedText : option string }.

(** The outcome of a computation that may throw an [Error]. *)
Inductive Exc (A : Type) := Ret (a : A) | Throw (message : string).
Arguments Ret {A} a.
Arguments Throw {A} message.

(** The [messages] argument of a chat completion. *)
Inductive Part := TextPart (text : string) | ImagePart (url : string).
Inductive Messages := UserParts (parts : list Part) | UserText (content : string).

(** What the closure [apiCallFunction] has captured. *)
Record Request := { model : string; messages : Messages; apiKey : string }.

(** What [fetch] and [response.json()] can come back with, as far as
    [apiCallFunction] looks at it.  It returns [message.content]
    without looking at it; the content is taken to be a string. *)
Record Message := { content : string }.
Record Choice := { message : option Message }.
Inductive FetchOutcome :=
| NetworkFailure (reason : string)
| HttpError (status : N) (statusText : string) (errorMessage : option string)
| BodyUnreadable (reason : string)
| Body (choices : option (list (option Choice))).

(** A suspended [processQuestion] activation together with the
    [extract] or [solve] activation it awaits.  [taskId] numbers the
    activations of [processQuestion] in the order they were started. *)
Inductive Stage := AwaitExtract | AwaitSolve (extractedText : string).
Record Cont := { taskId : nat; cq : string; stage : Stage }.

(** An element of [apiCallQueue].  The [resolve]/[reject] pair of the
    source settles the promise that [waiter] is suspended on; [callId]
    numbers the submissions. *)
Record QueueEntry := { callId : nat; request : Request; waiter : Cont }.

(** A suspended activation of [processAPIQueue]: at the [setTimeout]
    promise, or at [await apiCallFunction()]. *)
Inductive Loop := AwaitTimer (wake : Z) | AwaitCall (entry : QueueEntry).

(** A continuation whose awaited promise has settled, with the value it
    settled to ([Throw]: the promise was rejected). *)
Record Settled := { cont : Cont; value : Exc string }.

(** The history of the rate limiter, most recent event first. *)
Inductive GateEvent :=
| Submitted (id : nat)
| Dispatched (id : nat) (t : Z)
| Completed (id : nat) (t : Z).

(** The page: local storage and clock, the variables of the script, the
    suspended activations, and counters and history kept for stating
    properties. *)
Record State := {
  storedImages : list Image;
  storedKey : option string;
  clock : Z;
  questionStates : gmap string QState;
  processingBuffer : gset string;
  allQuestions : list string;
  questionData : gmap string QData;
  lastAPICallTime : Z;
  apiCallQueue : list QueueEntry;
  isProcessingQueue : bool;
  loops : list Loop;
  microtasks : list Settled;
  nextCall : nat;
  nextTask : nat;
  gateLog : list GateEvent
}.

Definition set_storedImages (v : list Image) (s : State) : State :=
  Build_State v (storedKey s) (clock s) (questionStates s) (processingBuffer s) (allQuestions
s) (questionData s) (lastAPICallTime s) (apiCallQueue s) (isProcessingQueue s) (loops s)
    (microtasks s) (nextCall s) (nextTask s) (gateLog s).
Definition set_storedKey (v : option string) (s : State) : State :=
  Build_State (storedImages s) v (clock s) (questionStates s) (processingBuffer s)
    (allQuestions s) (questionData s) (lastAPICallTime s) (apiCallQueue s) (isProcessingQueue s)
    (loops s) (microtasks s) (nextCall s) (nextTask s) (gateLog s).
Definition set_clock (v : Z) (s : State) : State :=
  Build_State (storedImages s) (storedKey s) v (questionStates s) (processingBuffer s)
    (allQuestions s) (questionData s) (lastAPICallTime s) (apiCallQueue s) (isProcessingQueue s)
    (loops s) (microtasks s) (nextCall s) (nextTask s) (gateLog s).
Definition set_questionStates (v : gmap string QState) (s : State) : State :=
  Build_State (storedImages s) (storedKey s) (clock s) v (processingBuffer s) (allQuestions s)
    (questionData s) (lastAPICallTime s) (apiCallQueue s) (isProcessingQueue s) (loops s)
    (microtasks s) (nextCall s) (nextTask s) (gateLog s).
Definition set_processingBuffer (v : gset string) (s : State) : State :=
  Build_State (storedImages s) (storedKey s) (clock s) (questionStates s) v (allQuestions s)
    (questionData s) (lastAPICallTime s) (apiCallQueue s) (isProcessingQueue s) (loops s)
    (microtasks s) (nextCall s) (nextTask s) (gateLog s).
Definition set_allQuestions (v : list string) (s : State) : State :=
  Build_State (storedImages s) (storedKey s) (clock s) (questionStates s) (processingBuffer s)
v (questionData s) (lastAPICallTime s) (apiCallQueue s) (isProcessingQueue s) (loops s)
    (microtasks s) (nextCall s) (nextTask s) (gateLog s).
Definition set_questionData (v : gmap string QData) (s : State) : State :=
  Build_State (storedImages s) (storedKey s) (clock s) (questionStates s) (processingBuffer s)
    (allQuestions s) v (lastAPICallTime s) (apiCallQueue s) (isProcessingQueue s) (loops s)
    (microtasks s) (nextCall s) (nextTask s) (gateLog s).
Definition set_lastAPICallTime (v : Z) (s : State) : State :=
  Build_State (storedImages s) (storedKey s) (clock s) (questionStates s) (processingBuffer s)
    (allQuestions s) (questionData s) v (apiCallQueue s) (isProcessingQueue s) (loops s)
    (microtasks s) (nextCall s) (nextTask s) (gateLog s).
Definition set_apiCallQueue (v : list QueueEntry) (s : State) : State :=
  Build_State (storedImages s) (storedKey s) (clock s) (questionStates s) (processingBuffer s)
    (allQuestions s) (questionData s) (lastAPICallTime s) v (isProcessingQueue s) (loops s)
    (microtasks s) (nextCall s) (nextTask s) (gateLog s).
Definition set_isProcessingQueue (v : bool) (s : State) : State :=
  Build_State (storedImages s) (storedKey s) (clock s) (questionStates s) (processingBuffer s)
    (allQuestions s) (questionData s) (lastAPICallTime s) (apiCallQueue s) v (loops s) (microtasks
s) (nextCall s) (nextTask s) (gateLog s).
Definition set_loops (v : list Loop) (s : State) : State :=
  Build_State (storedImages s) (storedKey s) (clock s) (questionStates s) (processingBuffer s)
    (allQuestions s) (questionData s) (lastAPICallTime s) (apiCallQueue s) (isProcessingQueue s) v
    (microtasks s) (nextCall s) (nextTask s) (gateLog s).
Definition set_microtasks (v : list Settled) (s : State) : State :=
  Build_State (storedImages s) (storedKey s) (clock s) (questionStates s) (processingBuffer s)
    (allQuestions s) (questionData s) (lastAPICallTime s) (apiCallQueue s) (isProcessingQueue s)
    (loops s) v (nextCall s) (nextTask s) (gateLog s).
Definition set_nextCall (v : nat) (s : State) : State :=
  Build_State (storedImages s) (storedKey s) (clock s) (questionStates s) (processingBuffer s)
    (allQuestions s) (questionData s) (lastAPICallTime s) (apiCallQueue s) (isProcessingQueue s)
    (loops s) (microtasks s) v (nextTask s) (gateLog s).
Definition set_nextTask (v : nat) (s : State) : State :=
  Build_State (storedImages s) (storedKey s) (clock s) (questionStates s) (processingBuffer s)
    (allQuestions s) (questionData s) (lastAPICallTime s) (apiCallQueue s) (isProcessingQueue s)
    (loops s) (microtasks s) (nextCall s) v (gateLog s).
Definition set_gateLog (v : list GateEvent) (s : State) : State :=
  Build_State (storedImages s) (storedKey s) (clock s) (questionStates s) (processingBuffer s)
    (allQuestions s) (questionData s) (lastAPICallTime s) (apiCallQueue s) (isProcessingQueue s)
    (loops s) (microtasks s) (nextCall s) (nextTask s) v.

(** ** Constants *)

Definition BUFFER_SIZE : nat := 3.
Definition RATE_LIMIT_DELAY : Z := 2000.
Definition VISION_MODEL : string := "meta-llama/Llama-Vision-Free".
Definition TEXT_MODEL : string := "lgai/exaone-deep-32b".
Definition NO_NUMBER : string := "No Q#".
Definition CONFIGURE_KEY : string := "Please configure your Together AI API key first".
Definition INVALID_FORMAT : string := "Invalid response format from API".

Definition EXTRACT_PROMPT : string :=
  "Please analyze this image and extract all the text, mathematical expressions, diagrams, and any other relevant content. Provide a detailed description of what you see in the image, including any questions, problems, or educational content. Be thorough and accurate in your extraction.".

Definition SOLVE_PROMPT_HEAD : string :=
  "Please solve the following question step by step. Provide a detailed solution with clear explanations, calculations, and reasoning. If it's a mathematical problem, show all work. If it's a conceptual question, provide a comprehensive answer with relevant examples.

Question content extracted from image:
".

Definition SOLVE_PROMPT_TAIL : string :=
  "

Please provide a complete solution with:
1. Understanding of the problem
2. Step-by-step solution process
3. Final answer
4. Any additional explanations or context that might be helpful".

(** ** Local storage *)

Definition getAPIKey (s : State) : option string := storedKey s.

(** [img.questionNumber || 'No Q#'] *)
Definition questionLabel (img : Image) : string :=
  match questionNumber img with
  | None | Some "" => NO_NUMBER
  | Some n => n
  end.

Definition getQuestionImages (images : list Image) (q : string) : list Image :=
  filter (λ img, questionLabel img = q) images.

(** ** The rate limiter *)

Module Gate.

(** [const {...} = apiCallQueue.shift()] and the call that follows it.
    On an empty queue the destructuring throws and the activation of
    [processAPIQueue] ends there, leaving [isProcessingQueue] alone. *)
Definition processAPIQueue_shift (s : State) : State * option Loop :=
  match apiCallQueue s with
  | [] => (s, None)
  | e :: rest =>
      (set_gateLog (Dispatched (callId e) (clock s) :: gateLog s)
         (set_apiCallQueue rest s),
       Some (AwaitCall e))
  end.

(** The [while] loop from its test up to the next [await]; when the
    queue is empty the loop is left and the flag cleared. *)
Definition processAPIQueue_while (s : State) : State * option Loop :=
  match apiCallQueue s with
  | [] => (set_isProcessingQueue false s, None)
  | _ :: _ =>
      let currentTime := clock s in
      let timeSinceLastCall := currentTime - lastAPICallTime s in
      if timeSinceLastCall <? RATE_LIMIT_DELAY then
        let waitTime := RATE_LIMIT_DELAY - timeSinceLastCall in
        (s, Some (AwaitTimer (currentTime + waitTime)))
      else processAPIQueue_shift s
  end.

(** Where an activation is kept once it has suspended: a fresh one
    joins [loops], a resumed one keeps its place, a finished one
    leaves. *)
Definition suspend_new (r : State * option Loop) : State :=
  match r with
  | (s, Some l) => set_loops (loops s ++ [l]) s
  | (s, None) => s
  end.

Definition suspend_at (i : nat) (r : State * option Loop) : State :=
  match r with
  | (s, Some l) => set_loops (<[i := l]> (loops s)) s
  | (s, None) => set_loops (delete i (loops s)) s
  end.

Definition processAPIQueue (s : State) : State :=
  if isProcessingQueue s || (length (apiCallQueue s) =? 0)%nat then s
  else suspend_new (processAPIQueue_while (set_isProcessingQueue true s)).

Definition rateLimitedAPICall (req : Request) (k : Cont) (s : State) : State :=
  let e := {| callId := nextCall s; request := req; waiter := k |} in
  let s := set_gateLog (Submitted (nextCall s) :: gateLog s)
             (set_nextCall (S (nextCall s)) s) in
  let s := set_apiCallQueue (apiCallQueue s ++ [e]) s in
  if negb (isProcessingQueue s) then processAPIQueue s else s.

End Gate.

(** ** The service client *)

Module Client.

(** The body of [apiCallFunction] after [fetch] has settled. *)
Definition apiCallFunction (r : FetchOutcome) : Exc string :=
  match r with
  | NetworkFailure reason => Throw reason
  | HttpError status statusText errorMessage =>
      Throw ("API call failed: " +:+ pretty status +:+ " " +:+ statusText
             +:+ ". " +:+ default "" errorMessage)
  | BodyUnreadable reason => Throw reason
  | Body (Some (Some {| message := Some m |} :: _)) => Ret (content m)
  | Body _ => Throw INVALID_FORMAT
  end.

(** An [async] operation of the client either settles before
    returning or suspends on one call. *)
Inductive Started := SettledNow (text : string) | Suspended (req : Request).

Definition extract_fallback (q message : string) : string :=
  "Error extracting content for Question " +:+ q +:+ ": " +:+ message
  +:+ ". Please check your API configuration and try again.".

Definition solve_fallback (q message extractedText : string) : string :=
  "Error solving Question " +:+ q +:+ ": " +:+ message +:+ ". 

Original extracted content:
" +:+ extractedText +:+ "

Please check your API configuration and try again.".

(** The [try] block of [extract] up to its [await].  [!apiKey] holds
    of a key that is [null] or the empty string. *)
Definition extract_request (key : option string) (images : list Image) (q : string)
  : Exc Request :=
  match key with
  | None | Some "" => Throw CONFIGURE_KEY
  | Some k =>
      if (length images =? 0)%nat then Throw ("No images found for question " +:+ q)
      else Ret {| model := VISION_MODEL;
                  messages := UserParts (TextPart EXTRACT_PROMPT
                                         :: map (λ img, ImagePart (dataUrl img)) images);
                  apiKey := k |}
  end.

(** The [try] block of [solve] up to its [await]. *)
Definition solve_request (key : option string) (extractedText : string) : Exc Request :=
  match key with
  | None | Some "" => Throw CONFIGURE_KEY
  | Some k =>
      Ret {| model := TEXT_MODEL;
             messages := UserText (SOLVE_PROMPT_HEAD +:+ extractedText +:+ SOLVE_PROMPT_TAIL);
             apiKey := k |}
  end.

(** The whole [try] block, given how the awaited call settles. *)
Definition extract_try (key : option string) (images : list Image) (q : string)
    (call : Request → Exc string) : Exc string :=
  match extract_request key images q with
  | Throw e => Throw e
  | Ret req => call req
  end.

Definition solve_try (key : option string) (extractedText : string)
    (call : Request → Exc string) : Exc string :=
  match solve_request key extractedText with
  | Throw e => Throw e
  | Ret req => call req
  end.

(** [extract] and [solve]: the [try] block with its [catch]. *)
Definition extract (key : option string) (images : list Image) (q : string)
    (call : Request → Exc string) : Exc string :=
  match extract_try key images q call with
  | Ret extractedText => Ret extractedText
  | Throw message => Ret (extract_fallback q message)
  end.

Definition solve (key : option string) (q extractedText : string)
    (call : Request → Exc string) : Exc string :=
  match solve_try key extractedText call with
  | Ret solvedText => Ret solvedText
  | Throw message => Ret (solve_fallback q message extractedText)
  end.

(** The same two functions cut at their [await]. *)
Definition extract_start (key : option string) (images : list Image) (q : string)
  : Started :=
  match extract_request key images q with
  | Throw message => SettledNow (extract_fallback q message)
  | Ret req => Suspended req
  end.

Definition extract_finish (q : string) (r : Exc string) : string :=
  match r with
  | Ret extractedText => extractedText
  | Throw message => extract_fallback q message
  end.

Definition solve_start (key : option string) (q extractedText : string) : Started :=
  match solve_request key extractedText with
  | Throw message => SettledNow (solve_fallback q message extractedText)
  | Ret req => Suspended req
  end.

Definition solve_finish (q extractedText : string) (r : Exc string) : string :=
  match r with
  | Ret solvedText => solvedText
  | Throw message => solve_fallback q message extractedText
  end.

(** What the suspended client activation hands to its caller once
    the call has settled. *)
Definition finish (k : Cont) (r : Exc string) : string :=
  match stage k with
  | AwaitExtract => extract_finish (cq k) r
  | AwaitSolve extractedText => solve_finish (cq k) extractedText r
  end.

End Client.

(** ** The scheduler *)

(** A promise that is already settled resumes its awaiter from the
    microtask queue, after the running code has returned. *)
Definition settle (k : Cont) (v : Exc string) (s : State) : State :=
  set_microtasks (microtasks s ++ [{| cont := k; value := v |}]) s.

(** [callTogetherAPI] wraps its request into [apiCallFunction] and
    hands it to the rate limiter. *)
Definition callTogetherAPI (req : Request) (k : Cont) (s : State) : State :=
  Gate.rateLimitedAPICall req k s.

(** Calling [extract] or [solve] from the activation [k]. *)
Definition invoke (c : Client.Started) (k : Cont) (s : State) : State :=
  match c with
  | Client.SettledNow text => settle k (Ret text) s
  | Client.Suspended req => callTogetherAPI req k s
  end.

(** [processQuestion] up to [await extract(questionNumber)].
    [updateButtonState] only touches the document and is left out. *)
Definition processQuestion (q : string) (s : State) : State :=
  let k := {| taskId := nextTask s; cq := q; stage := AwaitExtract |} in
  let s := set_nextTask (S (nextTask s)) s in
  let s := set_questionData
             (<[q := {| extractedText := None; solvedText := None |}]> (questionData s)) s in
  let s := set_questionStates (<[q := extracted]> (questionStates s)) s in
  invoke (Client.extract_start (getAPIKey s) (getQuestionImages (storedImages s) q) q) k s.

(** The [for] loop of [fillBuffer]. *)
Fixpoint fillBuffer_for (qs : list string) (added bufferSpaceAvailable : nat) (s : State)
  : State :=
  match qs with
  | [] => s
  | q :: rest =>
      if (bufferSpaceAvailable <=? added)%nat then s
      else if bool_decide (questionStates s !! q = Some unsolved) then
        let s := set_processingBuffer ({[q]} ∪ processingBuffer s) s in
        fillBuffer_for rest (S added) bufferSpaceAvailable (processQuestion q s)
      else fillBuffer_for rest added bufferSpaceAvailable s
  end.

(** [fillBuffer] *)
Definition fillBuffer (s : State) : State :=
  let bufferSpaceAvailable := Z.of_nat BUFFER_SIZE - Z.of_nat (size (processingBuffer s)) in
  if bufferSpaceAvailable <=? 0 then s
  else fillBuffer_for (allQuestions s) 0 (Z.to_nat bufferSpaceAvailable) s.

(** How a resumed stretch of [processQuestion]'s [try] block ends. *)
Inductive Outcome := Normal (s : State) | Thrown (s : State).

(** From the first [await] to the second.  Writing a field of
    [questionData.get(q)] throws when the entry is gone. *)
Definition processQuestion_after_extract (k : Cont) (v : Exc string) (s : State) : Outcome :=
  let q := cq k in
  match v with
  | Throw _ => Thrown s
  | Ret extractedText =>
      match questionData s !! q with
      | None => Thrown s
      | Some data =>
          let data := {| extractedText := Some extractedText; solvedText := solvedText data |} in
          let s := set_questionData (<[q := data]> (questionData s)) s in
          if bool_decide (q ∈ processingBuffer s) then
            let s := set_questionStates (<[q := solving]> (questionStates s)) s in
            let k := {| taskId := taskId k; cq := q; stage := AwaitSolve extractedText |} in
            Normal (invoke (Client.solve_start (getAPIKey s) q extractedText) k s)
          else Normal s
      end
  end.

(** From the second [await] to the end of the [try] block. *)
Definition processQuestion_after_solve (k : Cont) (v : Exc string) (s : State) : Outcome :=
  let q := cq k in
  match v with
  | Throw _ => Thrown s
  | Ret solvedText =>
      match questionData s !! q with
      | None => Thrown s
      | Some updatedData =>
          let updatedData :=
            {| extractedText := extractedText updatedData; solvedText := Some solvedText |} in
          let s := set_questionData (<[q := updatedData]> (questionData s)) s in
          if bool_decide (q ∈ processingBuffer s) then
            let s := set_questionStates (<[q := solved]> (questionStates s)) s in
            let s := set_processingBuffer (processingBuffer s ∖ {[q]}) s in
            Normal (fillBuffer s)
          else Normal s
      end
  end.

(** The stretch of the [try] block that the continuation [m] resumes. *)
Definition processQuestion_try (m : Settled) (s : State) : Outcome :=
  match stage (cont m) with
  | AwaitExtract => processQuestion_after_extract (cont m) (value m) s
  | AwaitSolve _ => processQuestion_after_solve (cont m) (value m) s
  end.

(** The [catch] block of [processQuestion]. *)
Definition processQuestion_catch (q : string) (s : State) : State :=
  fillBuffer (set_processingBuffer (processingBuffer s ∖ {[q]}) s).

(** The continuation [m] runs up to the next [await] or to the end. *)
Definition processQuestion_resume (m : Settled) (s : State) : State :=
  match processQuestion_try m s with
  | Normal s' => s'
  | Thrown s' => processQuestion_catch (cq (cont m)) s'
  end.

(** [initializeProcessing] *)
Definition initializeProcessing (s : State) : State :=
  let s := set_questionStates ∅ s in
  let s := set_processingBuffer ∅ s in
  let s := set_apiCallQueue [] s in
  let s := set_isProcessingQueue false s in
  let s := set_lastAPICallTime 0 s in
  let s := set_questionStates
             (foldl (λ states q, <[q := unsolved]> states) (questionStates s) (allQuestions s))
             s in
  fillBuffer s.

(** The keys of the map [uniqueQuestions], in insertion order. *)
Definition uniqueQuestions (images : list Image) : list string :=
  foldl (λ keys img,
           if bool_decide (questionLabel img ∈ keys) then keys
           else keys ++ [questionLabel img])
        [] images.

(** [renderQuestionButtons] as far as the registry goes: with no
    image stored it returns before anything is initialized. *)
Definition renderQuestionButtons (s : State) : State :=
  match storedImages s with
  | [] => s
  | _ :: _ => initializeProcessing (set_allQuestions (uniqueQuestions (storedImages s)) s)
  end.

(** The [onclick] handler of the reset button. *)
Definition resetButton_onclick (s : State) : State :=
  let s := set_processingBuffer ∅ s in
  let s := set_questionStates ∅ s in
  let s := set_questionData ∅ s in
  let s := set_apiCallQueue [] s in
  let s := set_isProcessingQueue false s in
  let s := set_lastAPICallTime 0 s in
  initializeProcessing s.

(** ** The event loop *)

(** The page before its script has run. *)
Definition blank (key : option string) (images : list Image) (now : Z) : State :=
  {| storedImages := images; storedKey := key; clock := now;
     questionStates := ∅; processingBuffer := ∅; allQuestions := [];
     questionData := ∅; lastAPICallTime := 0; apiCallQueue := [];
     isProcessingQueue := false; loops := []; microtasks := [];
     nextCall := 0; nextTask := 0; gateLog := [] |}.

(** The page once the [DOMContentLoaded] handler has returned. *)
Definition load (key : option string) (images : list Image) (now : Z) : State :=
  renderQuestionButtons (blank key images now).

(** What can happen next: the first settled continuation runs; the
    timer of the drain loop at place [i] fires; the call of the drain
    loop at place [i] comes back; the reset button is pressed; time
    passes; the key form or the capture page writes local storage. *)
Inductive Event :=
| EvMicrotask
| EvTimer (i : nat)
| EvResponse (i : nat) (r : FetchOutcome)
| EvResetClick
| EvClock (t : Z)
| EvStorage (key : option string) (images : list Image).

(** The drain loop [i] after its timer has fired. *)
Definition timer_fired (i : nat) (s : State) : State :=
  Gate.suspend_at i (Gate.processAPIQueue_shift s).

(** The drain loop [i] after [apiCallFunction()] has settled to [r]:
    the time is noted, the submitter's promise is settled, and the
    loop goes round.  The submitter resumes after the loop has
    suspended again. *)
Definition call_settled (i : nat) (e : QueueEntry) (r : Exc string) (s : State) : State :=
  let s := set_gateLog (Completed (callId e) (clock s) :: gateLog s)
             (set_lastAPICallTime (clock s) s) in
  let s := settle (waiter e) (Ret (Client.finish (waiter e) r)) s in
  Gate.suspend_at i (Gate.processAPIQueue_while s).

(** One turn of the event loop.  Settled continuations run first, in
    the order they were queued; timers, responses, clicks and storage
    changes are taken only when none is left.  The clock may advance
    at any point. *)
Definition step (s : State) (ev : Event) : option State :=
  match ev, microtasks s with
  | EvClock t, _ => if clock s <=? t then Some (set_clock t s) else None
  | EvMicrotask, m :: rest => Some (processQuestion_resume m (set_microtasks rest s))
  | EvTimer i, [] =>
      match loops s !! i with
      | Some (AwaitTimer wake) => if wake <=? clock s then Some (timer_fired i s) else None
      | _ => None
      end
  | EvResponse i r, [] =>
      match loops s !! i with
      | Some (AwaitCall e) => Some (call_settled i e (Client.apiCallFunction r) s)
      | _ => None
      end
  | EvResetClick, [] => Some (resetButton_onclick s)
  | EvStorage key images, [] => Some (set_storedImages images (set_storedKey key s))
  | _, _ => None
  end.

(** A run: the events are taken one after the other, if they can be. *)
Fixpoint run (s : State) (evs : list Event) : option State :=
  match evs with
  | [] => Some s
  | ev :: rest =>
      match step s ev with
      | Some s' => run s' rest
      | None => None
      end
  end.




(** ** Characters and texts *)

(** [/[A-Za-z]/] and [/\d/] on one character. *)
Definition isLetter (c : Ascii.ascii) : bool :=
  let code := Ascii.nat_of_ascii c in
  ((65 <=? code) && (code <=? 90) || (97 <=? code) && (code <=? 122))%nat.

Definition isDigit (c : Ascii.ascii) : bool :=
  let code := Ascii.nat_of_ascii c in ((48 <=? code) && (code <=? 57))%nat.

(** [text.slice(0, -1)] and [text.slice(-1)] of the text [String c rest]. *)
Fixpoint slice_last (c : Ascii.ascii) (rest : string) : string * Ascii.ascii :=
  match rest with
  | "" => ("", c)
  | String c' rest' => let (prefix, lastChar) := slice_last c' rest' in (String c prefix, lastChar)
  end.

Fixpoint all_digits (text : string) : bool :=
  match text with
  | "" => true
  | String c rest => isDigit c && all_digits rest
  end.

(** [text.match(/\d+$/)]: the first place from which only digits
    follow up to the end, as what stands before it ([index] is its
    length) and the digits matched. *)
Fixpoint match_trailing_digits (text : string) : option (string * string) :=
  match text with
  | "" => None
  | String c rest =>
      if isDigit c && all_digits rest then Some ("", text)
      else match match_trailing_digits rest with
           | Some (before, digits) => Some (String c before, digits)
           | None => None
           end
  end.

(** [parseInt(digits, 10)] of a string of digits. *)
Fixpoint parseInt_from (value : N) (digits : string) : N :=
  match digits with
  | "" => value
  | String c rest => parseInt_from (10 * value + N.of_nat (Ascii.nat_of_ascii c - 48)) rest
  end.

Definition parseInt (digits : string) : N := parseInt_from 0 digits.

(** Up to here a [Number] holds every integer exactly. *)
Definition MAX_SAFE_INTEGER : N := 9007199254740991.

(** [text.trim()]: white space and line ends among the characters
    below 256. *)
Definition isWhiteSpace (c : Ascii.ascii) : bool :=
  let code := Ascii.nat_of_ascii c in
  ((9 <=? code) && (code <=? 13) || (code =? 32) || (code =? 160))%nat.

Fixpoint trimStart (text : string) : string :=
  match text with
  | "" => ""
  | String c rest => if isWhiteSpace c then trimStart rest else text
  end.

Fixpoint trimEnd (text : string) : string :=
  match text with
  | "" => ""
  | String c rest =>
      match trimEnd rest with
      | "" => if isWhiteSpace c then "" else String c ""
      | kept => String c kept
      end
  end.

Definition trim (text : string) : string := trimEnd (trimStart text).

(** [text.split(separator)] for a separator of one character. *)
Fixpoint split (separator : Ascii.ascii) (text : string) : list string :=
  match text with
  | "" => [""]
  | String c rest =>
      if decide (c = separator) then "" :: split separator rest
      else match split separator rest with
           | piece :: pieces => String c piece :: pieces
           | [] => [String c ""]
           end
  end.

(** What [element.innerHTML] gives for an element whose only child is
    the text [text]: the text with its ampersands, no-break spaces
    and angle brackets written as character references. *)
Fixpoint serialized (text : string) : string :=
  match text with
  | "" => ""
  | String c rest =>
      (if decide (c = "&"%char) then "&amp;"
       else if decide (c = Ascii.ascii_of_nat 160) then "&nbsp;"
       else if decide (c = "<"%char) then "&lt;"
       else if decide (c = ">"%char) then "&gt;"
       else String c "") +:+ serialized rest
  end.

(** The double quote. *)
Definition QUOTE : string := String (Ascii.ascii_of_nat 34) "".

(** ** The capture page *)

Module Capture.

(** [incrementQuestionNumber].  Beyond [MAX_SAFE_INTEGER] the source
    computes [num + 1] with rounding; the embedding does not follow it
    there and gives [None]. *)
Definition incrementQuestionNumber (questionNumber : string) : option string :=
  match questionNumber with
  | "" => Some "1"
  | String c rest =>
      let (prefix, lastChar) := slice_last c rest in
      if isLetter lastChar then
        let nextCharCode := (Ascii.nat_of_ascii lastChar + 1)%nat in
        if ((90 <? nextCharCode) && (nextCharCode <? 97))%nat then Some (prefix +:+ "A")
        else if (122 <? nextCharCode)%nat then Some (prefix +:+ "a")
        else Some (prefix +:+ String (Ascii.ascii_of_nat nextCharCode) "")
      else
        match match_trailing_digits questionNumber with
        | Some (prefix, digits) =>
            let num := parseInt digits in
            if (num <=? MAX_SAFE_INTEGER)%N then Some (prefix +:+ pretty (num + 1)%N)
            else None
        | None => Some (questionNumber +:+ "1")
        end
  end.

(** A [FileReader] that is reading, with what its [onload] handler
    has captured: in single image mode the variables [files],
    [fileIndex] and [questionNumber] of the selection, in bulk mode
    its [questionNumber]. *)
Inductive Reading :=
| Single (files : list string) (fileIndex : nat) (questionNumber : string)
| Bulk (questionNumber : string).

(** The page: the list in local storage, the variables of the script,
    the two number fields, the readers at work and the gallery.  The
    mode label, the file count and the camera widgets are left out. *)
Record Page := {
  savedImages : list Image;
  isSingleImageMode : bool;
  fileQuestionNumberInput : string;
  cameraQuestionNumberInput : string;
  cameraStream : bool;
  readers : list Reading;
  imageGallery : list (string * string);
  emptyMessage : bool
}.

Definition set_savedImages (v : list Image) (p : Page) : Page :=
  Build_Page v (isSingleImageMode p) (fileQuestionNumberInput p) (cameraQuestionNumberInput p)
    (cameraStream p) (readers p) (imageGallery p) (emptyMessage p).
Definition set_isSingleImageMode (v : bool) (p : Page) : Page :=
  Build_Page (savedImages p) v (fileQuestionNumberInput p) (cameraQuestionNumberInput p)
    (cameraStream p) (readers p) (imageGallery p) (emptyMessage p).
Definition set_fileQuestionNumberInput (v : string) (p : Page) : Page :=
  Build_Page (savedImages p) (isSingleImageMode p) v (cameraQuestionNumberInput p)
    (cameraStream p) (readers p) (imageGallery p) (emptyMessage p).
Definition set_cameraQuestionNumberInput (v : string) (p : Page) : Page :=
  Build_Page (savedImages p) (isSingleImageMode p) (fileQuestionNumberInput p) v
    (cameraStream p) (readers p) (imageGallery p) (emptyMessage p).
Definition set_cameraStream (v : bool) (p : Page) : Page :=
  Build_Page (savedImages p) (isSingleImageMode p) (fileQuestionNumberInput p)
    (cameraQuestionNumberInput p) v (readers p) (imageGallery p) (emptyMessage p).
Definition set_readers (v : list Reading) (p : Page) : Page :=
  Build_Page (savedImages p) (isSingleImageMode p) (fileQuestionNumberInput p)
    (cameraQuestionNumberInput p) (cameraStream p) v (imageGallery p) (emptyMessage p).
Definition set_gallery (items : list (string * string)) (empty : bool) (p : Page) : Page :=
  Build_Page (savedImages p) (isSingleImageMode p) (fileQuestionNumberInput p)
    (cameraQuestionNumberInput p) (cameraStream p) (readers p) items empty.

(** [updateGallery]: one item per stored image, with its source and
    the text of its overlay; the empty message shows when there is
    none. *)
Definition updateGallery (p : Page) : Page :=
  let images := savedImages p in
  if (length images =? 0)%nat then set_gallery [] true p
  else set_gallery (map (λ imageObj, (dataUrl imageObj, questionLabel imageObj)) images) false p.

(** [addImageToStorage], when local storage takes the longer list. *)
Definition addImageToStorage (dataUrl questionNumber : string) (p : Page) : Page :=
  let images := savedImages p in
  let images := images ++ [{| dataUrl := dataUrl; questionNumber := Some questionNumber |}] in
  updateGallery (set_savedImages images p).

(** [processFile]: the next file, if one is left, gets a reader. *)
Definition processFile (files : list string) (fileIndex : nat) (questionNumber : string)
  : option Reading :=
  if (fileIndex <? length files)%nat then Some (Single files fileIndex questionNumber)
  else None.

(** Where a reader is kept: a new one joins [readers]; the one that
    follows in a selection takes the place of the one that is done. *)
Definition started (r : option Reading) (p : Page) : Page :=
  match r with
  | Some r => set_readers (readers p ++ [r]) p
  | None => p
  end.

Definition followed (i : nat) (r : option Reading) (p : Page) : Page :=
  match r with
  | Some r => set_readers (<[i := r]> (readers p)) p
  | None => set_readers (delete i (readers p)) p
  end.

(** The [change] handler of the mode switch. *)
Definition modeToggle_onchange (checked : bool) (p : Page) : Page :=
  set_isSingleImageMode checked p.

(** The [change] handler of the file input. *)
Definition fileInput_onchange (files : list string) (p : Page) : Page :=
  let questionNumber := trim (fileQuestionNumberInput p) in
  if isSingleImageMode p then started (processFile files 0 questionNumber) p
  else
    let p := set_readers (readers p ++ map (λ _, Bulk questionNumber) files) p in
    set_fileQuestionNumberInput "" p.

(** The [onload] handler of the reader [i].  When local storage
    refuses the list ([room] is [false]), [setItem] throws and the
    handler ends there. *)
Definition reader_onload (i : nat) (result : string) (room : bool) (p : Page)
  : option Page :=
  match readers p !! i with
  | Some (Single files fileIndex questionNumber) =>
      if room then
        let p := addImageToStorage result questionNumber p in
        questionNumber ← incrementQuestionNumber questionNumber;
        let p := set_fileQuestionNumberInput questionNumber p in
        let fileIndex := S fileIndex in
        Some (followed i (processFile files fileIndex questionNumber) p)
      else Some (followed i None p)
  | Some (Bulk questionNumber) =>
      if room then Some (followed i None (addImageToStorage result questionNumber p))
      else Some (followed i None p)
  | None => None
  end.

(** The [click] handler of the capture button; [frame] is what the
    canvas gives for the current frame. *)
Definition cameraCaptureButton_onclick (frame : string) (room : bool) (p : Page)
  : option Page :=
  if cameraStream p then
    let questionNumber := trim (cameraQuestionNumberInput p) in
    if room then
      let p := addImageToStorage frame questionNumber p in
      if isSingleImageMode p then
        next ← incrementQuestionNumber questionNumber;
        Some (set_cameraQuestionNumberInput next p)
      else Some (set_cameraQuestionNumberInput "" p)
    else Some p
  else Some p.

(** The [click] handler of the clear button. *)
Definition clearImagesButton_onclick (p : Page) : Page :=
  updateGallery (set_savedImages [] p).

(** The page once its [DOMContentLoaded] handler has returned, given
    what local storage and the two fields hold. *)
Definition load (images : list Image) (fileNumber cameraNumber : string) : Page :=
  updateGallery
    {| savedImages := images; isSingleImageMode := false;
       fileQuestionNumberInput := fileNumber; cameraQuestionNumberInput := cameraNumber;
       cameraStream := false; readers := []; imageGallery := []; emptyMessage := false |}.

(** What can happen on the page: the switch is moved, a field is
    edited, files are chosen, a reader is done or fails, the camera
    is granted or denied, a frame is captured, the list is cleared. *)
Inductive Event :=
| EvMode (checked : bool)
| EvFileNumber (text : string)
| EvCameraNumber (text : string)
| EvFiles (files : list string)
| EvLoaded (i : nat) (result : string) (room : bool)
| EvReadError (i : nat)
| EvCamera (granted : bool)
| EvCapture (frame : string) (room : bool)
| EvClear.

Definition step (p : Page) (ev : Event) : option Page :=
  match ev with
  | EvMode checked => Some (modeToggle_onchange checked p)
  | EvFileNumber text => Some (set_fileQuestionNumberInput text p)
  | EvCameraNumber text => Some (set_cameraQuestionNumberInput text p)
  | EvFiles files => Some (fileInput_onchange files p)
  | EvLoaded i result room => reader_onload i result room p
  | EvReadError i =>
      match readers p !! i with
      | Some _ => Some (followed i None p)
      | None => None
      end
  | EvCamera granted => Some (if granted then set_cameraStream true p else p)
  | EvCapture frame room => cameraCaptureButton_onclick frame room p
  | EvClear => Some (clearImagesButton_onclick p)
  end.

Fixpoint run (p : Page) (evs : list Event) : option Page :=
  match evs with
  | [] => Some p
  | ev :: rest => p ← step p ev; run p rest
  end.

End Capture.

(** ** The key form and the data URL helper *)

(** [dataUrlToBase64]: [undefined] is [None]. *)
Definition dataUrlToBase64 (dataUrl : string) : option string :=
  split ","%char dataUrl !! 1%nat.

(** What [updateAPIStatus] was last called with: that the key was
    loaded from storage, that it was saved, or that a valid key is
    asked for. *)
Inductive Status := KeyLoaded | KeySaved | KeyAskedFor.

(** The key field and the status line under it; [None]: the status
    line as the document came with it. *)
Record KeyForm := { apiKeyInput : string; apiStatus : option Status }.

(** [saveAPIKey] *)
Definition saveAPIKey (apiKey : string) (s : State) : State :=
  set_storedKey (Some (trim apiKey)) s.

(** [initializeAPIKeyManagement], up to the registration of its two
    handlers. *)
Definition initializeAPIKeyManagement (s : State) (form : KeyForm) : KeyForm :=
  match getAPIKey s with
  | None | Some "" => form
  | Some existingKey => {| apiKeyInput := existingKey; apiStatus := Some KeyLoaded |}
  end.

(** The [click] handler of the save button, which the Enter key in
    the field runs as well.  When local storage refuses the key
    ([room] is [false]), [setItem] throws and the handler ends
    there. *)
Definition saveButton_onclick (room : bool) (form : KeyForm) (s : State) : State * KeyForm :=
  let apiKey := trim (apiKeyInput form) in
  match apiKey with
  | "" => (s, {| apiKeyInput := apiKeyInput form; apiStatus := Some KeyAskedFor |})
  | _ =>
      if room then
        (saveAPIKey apiKey s, {| apiKeyInput := apiKeyInput form; apiStatus := Some KeySaved |})
      else (s, form)
  end.

(** ** The details of a question *)

Module QuestionModal.

(** The modal: its title, the source and the alternative text of the
    images it shows, its two text sections and its empty note with
    whether each is displayed, whether the overlay has the class
    [active], the field [isOpen], and what the modal has last written
    to [document.body.style.overflow].  [None] stands for what the
    template came with, or for nothing written yet. *)
Record Modal := {
  title : string;
  modalImages : list (string * string);
  extractedSection : bool;
  extractedContent : option string;
  solvedSection : bool;
  solvedContent : option string;
  emptyState : bool;
  active : bool;
  isOpen : bool;
  bodyOverflow : option string
}.

(** The constructor with [init]. *)
Definition init : Modal :=
  {| title := "Question Details"; modalImages := [];
     extractedSection := false; extractedContent := None;
     solvedSection := false; solvedContent := None;
     emptyState := false; active := false; isOpen := false; bodyOverflow := None |}.

(** [escapeHtml] *)
Definition escapeHtml (text : string) : string := serialized text.

(** [updateImages] *)
Definition updateImages (images : list Image) (m : Modal) : Modal :=
  let items := imap (λ index imageObj,
                       (dataUrl imageObj, "Question image " +:+ pretty (index + 1)%nat))
                    images in
  Build_Modal (title m) items (extractedSection m) (extractedContent m) (solvedSection m)
    (solvedContent m) (emptyState m) (active m) (isOpen m) (bodyOverflow m).

(** A text that is neither [null] nor empty. *)
Definition truthy (text : option string) : bool :=
  match text with
  | None | Some "" => false
  | Some _ => true
  end.

(** [updateTextSections] *)
Definition updateTextSections (extractedText solvedText : option string) (m : Modal)
  : Modal :=
  if truthy extractedText || truthy solvedText then
    let '(extractedSection, extractedContent) :=
      if truthy extractedText then (true, extractedText)
      else (false, extractedContent m) in
    let '(solvedSection, solvedContent) :=
      if truthy solvedText then
        (true, Some ("<span class=" +:+ QUOTE +:+ "highlight-text" +:+ QUOTE +:+ ">"
                     +:+ escapeHtml (default "" solvedText) +:+ "</span>"))
      else (false, solvedContent m) in
    Build_Modal (title m) (modalImages m) extractedSection extractedContent solvedSection
      solvedContent false (active m) (isOpen m) (bodyOverflow m)
  else
    Build_Modal (title m) (modalImages m) false (extractedContent m) false (solvedContent m)
      true (active m) (isOpen m) (bodyOverflow m).

(** [show] *)
Definition show (questionNumber : string) (images : list Image)
    (extractedText solvedText : option string) (m : Modal) : Modal :=
  let m := Build_Modal ("Question " +:+ questionNumber) (modalImages m) (extractedSection m)
             (extractedContent m) (solvedSection m) (solvedContent m) (emptyState m)
             (active m) (isOpen m) (bodyOverflow m) in
  let m := updateImages images m in
  let m := updateTextSections extractedText solvedText m in
  Build_Modal (title m) (modalImages m) (extractedSection m) (extractedContent m)
    (solvedSection m) (solvedContent m) (emptyState m) true true (Some "hidden").

(** [close] *)
Definition close (m : Modal) : Modal :=
  Build_Modal (title m) (modalImages m) (extractedSection m) (extractedContent m)
    (solvedSection m) (solvedContent m) (emptyState m) false false (Some "").

(** [isModalOpen] *)
Definition isModalOpen (m : Modal) : bool := isOpen m.

(** What the modal answers to: a call of [show], a click on the
    close button, a click on the overlay or on something inside it,
    a key pressed anywhere in the document. *)
Inductive Event :=
| EvShow (questionNumber : string) (images : list Image)
         (extractedText solvedText : option string)
| EvCloseClick
| EvModalClick (onOverlay : bool)
| EvKeyDown (key : string).

(** The listeners of [setupEventListeners]. *)
Definition step (m : Modal) (ev : Event) : Modal :=
  match ev with
  | EvShow questionNumber images extractedText solvedText =>
      show questionNumber images extractedText solvedText m
  | EvCloseClick => close m
  | EvModalClick onOverlay => if onOverlay then close m else m
  | EvKeyDown key => if bool_decide (key = "Escape") && isOpen m then close m else m
  end.

Definition run (m : Modal) (evs : list Event) : Modal := foldl step m evs.

End QuestionModal.




(** * Properties *)

(** ** The scheduler's variables *)

(** The fields the rate limiter never writes. *)
Definition same_page (s s' : State) : Prop :=
  questionStates s' = questionStates s ∧ processingBuffer s' = processingBuffer s ∧
  allQuestions s' = allQuestions s ∧ questionData s' = questionData s ∧
  storedImages s' = storedImages s ∧ storedKey s' = storedKey s ∧ clock s' = clock s.

(** The entry of [questionData] a task starts with. *)
Definition freshData : QData := {| extractedText := None; solvedText := None |}.

(** One question is taken into the buffer by the loop of [fillBuffer]. *)
Definition enter (q : string) (s : State) : State :=
  processQuestion q (set_processingBuffer ({[q]} ∪ processingBuffer s) s).

(** A question in the buffer is being extracted or solved, and only
    questions of the registry have a state. *)
Record settled_page (s : State) : Prop := {
  buffer_active : ∀ q, q ∈ processingBuffer s →
      questionStates s !! q = Some extracted ∨ questionStates s !! q = Some solving;
  states_known : ∀ q, is_Some (questionStates s !! q) → q ∈ allQuestions s
}.

(** What holds of every page a run can reach: moreover the buffer is
    within its capacity, and full while a question is unsolved. *)
Record consistent (s : State) : Prop := {
  consistent_page :> settled_page s;
  buffer_bounded : (size (processingBuffer s) ≤ BUFFER_SIZE)%nat;
  buffer_filled : ∀ q, questionStates s !! q = Some unsolved →
      (BUFFER_SIZE ≤ size (processingBuffer s))%nat
}.

(** The place of a state in the life of a question. *)
Definition rank (a : QState) : nat :=
  match a with unsolved => 0 | extracted => 1 | solving => 2 | solved => 3 end.

(** No question has moved backward between [s] and [s']. *)
Definition forward (s s' : State) : Prop :=
  ∀ q a, questionStates s !! q = Some a →
         ∃ b, questionStates s' !! q = Some b ∧ (rank a ≤ rank b)%nat.

(** The reset button is not pressed. *)
Definition reset_free (evs : list Event) : Prop := Forall (λ ev, ev ≠ EvResetClick) evs.

(** The state of [q] on every page a run goes through. *)
Fixpoint states_along (q : string) (s : State) (evs : list Event) : list QState :=
  match questionStates s !! q with Some a => [a] | None => [] end ++
  match evs with
  | [] => []
  | ev :: rest =>
      match step s ev with
      | Some s' => states_along q s' rest
      | None => []
      end
  end.

(** A sequence with its repetitions dropped. *)
Fixpoint changes (l : list QState) : list QState :=
  match l with
  | [] => []
  | a :: rest =>
      match rest with
      | [] => [a]
      | b :: _ => if decide (a = b) then changes rest else a :: changes rest
      end
  end.

(** The life of a question. *)
Definition lifecycle : list QState := [unsolved; extracted; solving; solved].

(** ** The rate limiter's variables *)

(** The variables of the rate limiter, with the clock it reads. *)
Definition gate_view (s : State) :=
  (gateLog s, apiCallQueue s, nextCall s, lastAPICallTime s, isProcessingQueue s, loops s,
   clock s).

(** The calls handed to [rateLimitedAPICall], oldest first. *)
Fixpoint submitted (log : list GateEvent) : list nat :=
  match log with
  | [] => []
  | Submitted id :: rest => submitted rest ++ [id]
  | _ :: rest => submitted rest
  end.

(** The calls a drain loop has started, oldest first. *)
Fixpoint dispatched (log : list GateEvent) : list nat :=
  match log with
  | [] => []
  | Dispatched id _ :: rest => dispatched rest ++ [id]
  | _ :: rest => dispatched rest
  end.

(** The calls waiting in [apiCallQueue], oldest first. *)
Definition queued (s : State) : list nat := map callId (apiCallQueue s).

(** Submissions are numbered as they come, and what was dispatched,
    followed by what still waits, is a subsequence of them. *)
Definition fifo (s : State) : Prop :=
  submitted (gateLog s) = seq 0 (nextCall s) ∧
  sublist (dispatched (gateLog s) ++ queued s) (submitted (gateLog s)).

(** Nothing has been dropped from the queue. *)
Definition fifo_exact (s : State) : Prop :=
  submitted (gateLog s) = seq 0 (nextCall s) ∧
  dispatched (gateLog s) ++ queued s = submitted (gateLog s).

(** Nothing was submitted between [s] and [s'], and every call has
    kept its place. *)
Definition order_kept (s s' : State) : Prop :=
  submitted (gateLog s') = submitted (gateLog s) ∧ nextCall s' = nextCall s ∧
  dispatched (gateLog s') ++ queued s' = dispatched (gateLog s) ++ queued s.

(** Every call that was started has come back. *)
Definition all_done (log : list GateEvent) : Prop :=
  ∀ id t, Dispatched id t ∈ log → ∃ tc, Completed id tc ∈ log.

(** The same, but for the call [x]. *)
Definition done_except (x : nat) (log : list GateEvent) : Prop :=
  ∀ id t, Dispatched id t ∈ log → id = x ∨ ∃ tc, Completed id tc ∈ log.

(** Each call was started when all the calls before it had come back,
    the floor or more ago; each completion is of a call started
    before. *)
Fixpoint floor_kept (log : list GateEvent) : Prop :=
  match log with
  | [] => True
  | ev :: pre =>
      match ev with
      | Dispatched b tb =>
          ∀ a ta, Dispatched a ta ∈ pre →
                  ∃ tc, Completed a tc ∈ pre ∧ tc + RATE_LIMIT_DELAY ≤ tb
      | Completed a tc => ∃ ta, Dispatched a ta ∈ pre
      | Submitted _ => True
      end ∧ floor_kept pre
  end.

(** The most recent completion. *)
Fixpoint latest_completion (log : list GateEvent) : option Z :=
  match log with
  | [] => None
  | Completed _ t :: _ => Some t
  | _ :: pre => latest_completion pre
  end.

(** The one drain loop and what it waits for. *)
Definition one_loop (s : State) : Prop :=
  match loops s with
  | [] => isProcessingQueue s = false ∧ apiCallQueue s = [] ∧ all_done (gateLog s)
  | [AwaitTimer wake] =>
      isProcessingQueue s = true ∧ apiCallQueue s ≠ [] ∧
      wake = lastAPICallTime s + RATE_LIMIT_DELAY ∧ all_done (gateLog s)
  | [AwaitCall e] =>
      isProcessingQueue s = true ∧ done_except (callId e) (gateLog s) ∧
      ∃ t, Dispatched (callId e) t ∈ gateLog s
  | _ => False
  end.

(** What the history says about the times. *)
Record timed (s : State) : Prop := {
  timed_past : ∀ id t, Completed id t ∈ gateLog s → t ≤ lastAPICallTime s ∧ t ≤ clock s;
  timed_floor : floor_kept (gateLog s);
  timed_latest : lastAPICallTime s = default 0 (latest_completion (gateLog s))
}.

(** What holds of the rate limiter while processing is not reset. *)
Definition paced (s : State) : Prop := one_loop s ∧ timed s.


(** The calls that are out at the service. *)
Definition call_of (l : Loop) : option QueueEntry :=
  match l with
  | AwaitCall e => Some e
  | AwaitTimer _ => None
  end.

Definition in_flight (s : State) : list QueueEntry := omap call_of (loops s).

(** Of two calls started one after the other, the first has come
    back in between, the floor or more before the second was started. *)
Definition rate_floor (log : list GateEvent) : Prop :=
  ∀ post b tb mid a ta pre,
    log = post ++ Dispatched b tb :: mid ++ Dispatched a ta :: pre →
    (∀ c t, Dispatched c t ∉ mid) →
    ∃ tc, Completed a tc ∈ mid ∧ tc + RATE_LIMIT_DELAY ≤ tb.

(** ** Progress *)

(** The continuations that will still run: settled ones, those
    queued at the rate limiter, and those whose call is out. *)
Definition pending (s : State) : list Cont :=
  (cont <$> microtasks s) ++ (waiter <$> apiCallQueue s) ++ (waiter <$> in_flight s).

(** What the rate limiter still has to do. *)
Definition gate_work (s : State) : nat :=
  2 * length (apiCallQueue s) + length (in_flight s).

(** The call a round of the drain loop has taken with it. *)
Definition carried (r : State * option Loop) : list QueueEntry :=
  match r.2 with
  | Some (AwaitCall e) => [e]
  | _ => []
  end.

(** A round of the drain loop from [s]: the queue loses the call
    it takes and nothing else changes hands. *)
Definition round_of (s : State) (r : State * option Loop) : Prop :=
  apiCallQueue s ≡ₚ carried r ++ apiCallQueue r.1 ∧
  (2 * length (apiCallQueue r.1) + 2 * length (carried r) = 2 * length (apiCallQueue s))%nat ∧
  microtasks r.1 = microtasks s ∧ loops r.1 = loops s.

(** No awaited promise was rejected. *)
Definition answered (s : State) : Prop :=
  Forall (λ m, ∃ text, value m = Ret text) (microtasks s).

(** The question of a continuation has its entry in [questionData]
    and is in the state the continuation left it in. *)
Definition cont_ok (s : State) (k : Cont) : Prop :=
  is_Some (questionData s !! cq k) ∧
  questionStates s !! cq k =
    Some (match stage k with AwaitExtract => extracted | AwaitSolve _ => solving end).

(** The questions in the buffer are those being extracted or solved,
    and each of them has exactly one of the continuations [conts]. *)
Record tracked_by (s : State) (conts : list Cont) : Prop := {
  tr_nodup : NoDup (allQuestions s);
  tr_states : ∀ q, q ∈ allQuestions s → is_Some (questionStates s !! q);
  tr_active : ∀ q, questionStates s !! q = Some extracted ∨
                   questionStates s !! q = Some solving → q ∈ processingBuffer s;
  tr_unique : NoDup (cq <$> conts);
  tr_conts : Forall (cont_ok s) conts;
  tr_buffer : ∀ q, q ∈ processingBuffer s → q ∈ cq <$> conts
}.

Definition tracked (s : State) : Prop := tracked_by s (pending s) ∧ answered s.

(** The work left: three units per step a question has still to
    take, and the work at the rate limiter. *)
Definition owed (a : option QState) : nat :=
  match a with
  | Some unsolved => 3
  | Some extracted => 2
  | Some solving => 1
  | _ => 0
  end.

(** The work left on the questions [qs]. *)
Definition page_work (states : gmap string QState) (qs : list string) : nat :=
  sum_list_with (λ q, owed (states !! q)) qs.

(** All the work left on a page. *)
Definition work (s : State) : nat :=
  (3 * page_work (questionStates s) (allQuestions s) + gate_work s)%nat.

(** What holds along a run in which processing is never reset. *)
Record live (s : State) : Prop := {
  live_consistent : consistent s;
  live_paced : paced s;
  live_tracked : tracked s
}.


(** ** Texts *)


(** ** Pages and runs to compute with *)

(** An image stored under the question number [q]. *)
Definition photo (q : string) : Image :=
  {| dataUrl := "data:image/png;base64," +:+ q; questionNumber := Some q |}.

(** A response the client accepts. *)
Definition answer (text : string) : FetchOutcome :=
  Body (Some [Some {| message := Some {| content := text |} |}]).


(** A key is stored and the page is loaded with one question, or with
    four. *)
Definition one_question : State := load (Some "key") [photo "1"] 1000000.
Definition four_questions : State :=
  load (Some "key") [photo "1"; photo "2"; photo "3"; photo "4"] 1000000.

(** The reset button is pressed while the first extraction call is
    out; the old call comes back, then the old task's solve call. *)
Definition reset_during_extraction : list Event :=
  [EvClock 1000500; EvResetClick;
   EvClock 1001000; EvResponse 0 (answer "old extraction");
   EvMicrotask;
   EvClock 1003000; EvTimer 1;
   EvClock 1004000; EvResponse 1 (answer "old solution")].

(** The button is pressed a tenth of a second after the first call
    came back. *)
Definition reset_after_completion : list Event :=
  [EvClock 1000800; EvResponse 0 (answer "extraction"); EvMicrotask;
   EvClock 1000900; EvResetClick].

(** The page a run ends on. *)
Definition after (evs : list Event) (s : State) : State := default s (run s evs).

(** Two calls for one question, with the wait between them. *)
Definition two_calls : list Event :=
  [EvClock 1000800; EvResponse 0 (answer "extraction"); EvMicrotask;
   EvClock 1002800; EvTimer 0].

(** The promise that task 1 awaits for question "2" is rejected. *)
Definition rejected_extraction : Settled :=
  {| cont := {| taskId := 1; cq := "2"; stage := AwaitExtract |};
     value := Throw "anomaly" |}.

(** ** Question numbers *)

(** The number [n] images after [q] in single image mode. *)
Definition counted (n : nat) (q : string) : option string :=
  Nat.iter n (λ number, number ≫= Capture.incrementQuestionNumber) (Some q).

(** The last character of a text, if it has one. *)
Definition last_char (text : string) : option Ascii.ascii :=
  match text with
  | "" => None
  | String c rest => Some (slice_last c rest).2
  end.

Definition ends_in (class : Ascii.ascii → bool) (text : string) : bool :=
  match last_char text with
  | Some c => class c
  | None => false
  end.

(** ** The stored list and the gallery *)


(** An image as the capture page stores it. *)
Definition stored (dataUrl questionNumber : string) : Image :=
  {| dataUrl := dataUrl; questionNumber := Some questionNumber |}.



(** The results that made it into local storage, in the order the
    readers were done. *)
Definition kept (evs : list Capture.Event) : list string :=
  omap (λ ev, match ev with
              | Capture.EvLoaded _ result true => Some result
              | _ => None
              end) evs.

(** A reader that was started at place [from] or later is done. *)
Definition loads_from (from : nat) (ev : Capture.Event) : Prop :=
  ∃ i result room, ev = Capture.EvLoaded i result room ∧ (from ≤ i)%nat.

(** The entry of the registry an image stored under [number] goes to. *)
Definition entry_of (number : string) : string :=
  if decide (number = "") then NO_NUMBER else number.

(** ** Characters and white space *)

(** The character [c] occurs in [text]. *)
Fixpoint contains (c : Ascii.ascii) (text : string) : bool :=
  match text with
  | "" => false
  | String c' rest => bool_decide (c' = c) || contains c rest
  end.

(** The first character of a text, if it has one. *)
Definition first_char (text : string) : option Ascii.ascii :=
  match text with
  | "" => None
  | String c _ => Some c
  end.

(** A text with no white space at either end. *)
Definition trimmed (text : string) : Prop :=
  (∀ c, first_char text = Some c → isWhiteSpace c = false) ∧
  (∀ c, last_char text = Some c → isWhiteSpace c = false).

(** ** The modal and the stored texts *)

(** The markup [updateTextSections] writes for a solution. *)
Definition highlighted (text : string) : string :=
  "<span class=" +:+ QUOTE +:+ "highlight-text" +:+ QUOTE +:+ ">"
  +:+ QuestionModal.escapeHtml text +:+ "</span>".

(** What the modal looks like agrees with what it holds itself to be. *)
Record modal_sound (m : QuestionModal.Modal) : Prop := {
  sound_active : QuestionModal.active m = QuestionModal.isOpen m;
  sound_scroll : QuestionModal.bodyOverflow m = Some "hidden" ↔ QuestionModal.isOpen m = true;
  sound_empty : QuestionModal.emptyState m = true →
                QuestionModal.extractedSection m = false ∧
                QuestionModal.solvedSection m = false;
  sound_filled : QuestionModal.isOpen m = true →
                 QuestionModal.emptyState m = true ∨
                 QuestionModal.extractedSection m = true ∨
                 QuestionModal.solvedSection m = true;
  sound_extracted : QuestionModal.extractedSection m = true →
                    ∃ text, text ≠ "" ∧ QuestionModal.extractedContent m = Some text;
  sound_solved : QuestionModal.solvedSection m = true →
                 ∃ text, text ≠ "" ∧ QuestionModal.solvedContent m = Some (highlighted text)
}.


(** ** Calls to the service *)

(** A key that [!apiKey] takes for missing. *)
Definition no_key (key : option string) : Prop := key = None ∨ key = Some "".

(** Nothing was ever handed to the rate limiter, and no key is stored. *)
Definition quiet (s : State) : Prop :=
  no_key (storedKey s) ∧ gateLog s = [] ∧ apiCallQueue s = [] ∧ loops s = [] ∧
  nextCall s = 0%nat.

(** Local storage is written without a key. *)
Definition keeps_no_key (ev : Event) : Prop :=
  ∀ key images, ev = EvStorage key images → no_key key.



(** A page that has nothing to work on. *)
Definition inert (s : State) : Prop :=
  allQuestions s = [] ∧ questionStates s = ∅ ∧ processingBuffer s = ∅ ∧
  questionData s = ∅ ∧ gateLog s = [] ∧ microtasks s = [] ∧ loops s = [] ∧
  apiCallQueue s = [].





(** ** More pages and runs to compute with *)



Definition bulk_page : Capture.Page := Capture.load [] " 7 " "".

(** Three files and what their readers give. *)
Definition three_files : list string := ["a.png"; "b.png"; "c.png"].

(** The readers of a bulk selection are done out of order, and local
    storage refuses the last image. *)
Definition bulk_loads : list Capture.Event :=
  [Capture.EvLoaded 2 "data:c" true; Capture.EvLoaded 0 "data:a" true;
   Capture.EvLoaded 0 "data:b" false].


(** * Proofs *)

Set Warnings "-clear-no-such-hyp".

Ltac unfold_gate :=
  unfold callTogetherAPI, Gate.rateLimitedAPICall, Gate.processAPIQueue, Gate.suspend_new,
    Gate.suspend_at, Gate.processAPIQueue_while, Gate.processAPIQueue_shift, settle in *.

Ltac fields :=
  cbn [storedImages storedKey clock questionStates processingBuffer allQuestions questionData
       lastAPICallTime apiCallQueue isProcessingQueue loops microtasks nextCall nextTask gateLog
       set_storedImages set_storedKey set_clock set_questionStates set_processingBuffer
       set_allQuestions set_questionData set_lastAPICallTime set_apiCallQueue
       set_isProcessingQueue set_loops set_microtasks set_nextCall set_nextTask set_gateLog
       blank fst snd] in *.

Ltac split_cases := repeat (case_match; simplify_eq/=).

(** ** What the rate limiter leaves alone *)

Lemma rateLimitedAPICall_same_page req k s : same_page s (Gate.rateLimitedAPICall req k s).
Proof. unfold same_page. unfold_gate. simpl. split_cases; done. Qed.

Lemma invoke_same_page c k s : same_page s (invoke c k s).
Proof.
  destruct c; simpl; [done|]. apply rateLimitedAPICall_same_page.
Qed.

Lemma enter_page q s :
  questionStates (enter q s) = <[q := extracted]> (questionStates s) ∧
  processingBuffer (enter q s) = {[q]} ∪ processingBuffer s ∧
  allQuestions (enter q s) = allQuestions s ∧
  questionData (enter q s) = <[q := freshData]> (questionData s) ∧
  storedImages (enter q s) = storedImages s ∧ storedKey (enter q s) = storedKey s ∧
  clock (enter q s) = clock s.
Proof.
  unfold enter, processQuestion.
  match goal with |- context [invoke ?c ?k ?s] =>
    destruct (invoke_same_page c k s) as (-> & -> & -> & -> & -> & -> & ->) end.
  done.
Qed.

(** ** Filling the buffer *)

Lemma fillBuffer_for_cons q rest added avail s :
  fillBuffer_for (q :: rest) added avail s =
  if (avail <=? added)%nat then s
  else if bool_decide (questionStates s !! q = Some unsolved)
       then fillBuffer_for rest (S added) avail (enter q s)
       else fillBuffer_for rest added avail s.
Proof. reflexivity. Qed.

(** Whatever holds before [fillBuffer] and survives the entry of one question
    holds after it; [P] is told how many slots are still to be
    filled. *)
Lemma fillBuffer_for_enters (P : nat → State → Prop) qs :
  (∀ r q s, q ∈ qs → questionStates s !! q = Some unsolved → P (S r) s → P r (enter q s)) →
  ∀ added avail s,
    P (avail - added)%nat s → ∃ r, P r (fillBuffer_for qs added avail s).
Proof.
  intros Henter. induction qs as [|q rest IH]; intros added avail s HP; [by eexists|].
  rewrite fillBuffer_for_cons.
  destruct (avail <=? added)%nat eqn:Hroom; [by eexists|].
  apply Nat.leb_gt in Hroom.
  assert (IH' : ∀ added avail s, P (avail - added)%nat s →
                 ∃ r, P r (fillBuffer_for rest added avail s)).
  { apply IH. intros r q' s' Hin. apply Henter. by right. }
  case_bool_decide as Hq; [|by apply IH'].
  apply IH'. apply (Henter _ q); [by left|done|].
  by replace (S (avail - S added))%nat with (avail - added)%nat by lia.
Qed.

Lemma fillBuffer_enters (P : nat → State → Prop) s :
  (∀ r q s', q ∈ allQuestions s → questionStates s' !! q = Some unsolved →
             P (S r) s' → P r (enter q s')) →
  P (BUFFER_SIZE - size (processingBuffer s))%nat s → ∃ r, P r (fillBuffer s).
Proof.
  intros Henter HP. unfold fillBuffer.
  case_match; [by eexists|].
  apply fillBuffer_for_enters; [done|].
  by replace (Z.to_nat _ - 0)%nat with (BUFFER_SIZE - size (processingBuffer s))%nat by lia.
Qed.

Lemma size_add_le (q : string) (X : gset string) : (size ({[q]} ∪ X) ≤ S (size X))%nat.
Proof.
  destruct (decide (q ∈ X)).
  - replace ({[q]} ∪ X) with X by set_solver. lia.
  - rewrite size_union by set_solver. rewrite size_singleton. lia.
Qed.

Lemma size_add_new (q : string) (X : gset string) : q ∉ X → size ({[q]} ∪ X) = S (size X).
Proof. intros. rewrite size_union by set_solver. by rewrite size_singleton. Qed.

Lemma size_remove_le (q : string) (X : gset string) : (size (X ∖ {[q]}) ≤ size X)%nat.
Proof. apply subseteq_size. set_solver. Qed.

Lemma enter_settled_page q s :
  q ∈ allQuestions s → settled_page s → settled_page (enter q s).
Proof.
  intros Hq [Hact Hknown].
  destruct (enter_page q s) as (Hst & Hbuf & Hall & _).
  split; rewrite ?Hst, ?Hbuf, ?Hall.
  - intros q' Hin. destruct (decide (q' = q)) as [->|Hne].
    + left. by rewrite lookup_insert_eq.
    + rewrite lookup_insert_ne by done. apply Hact. set_solver.
  - intros q' Hsome. destruct (decide (q' = q)) as [->|Hne]; [done|].
    rewrite lookup_insert_ne in Hsome by done. by apply Hknown.
Qed.

(** After the loop of [fillBuffer] the buffer is full or no question
    of the list is left unsolved. *)
Lemma fillBuffer_for_fills qs : ∀ added avail s,
  settled_page s → (∀ q, q ∈ qs → q ∈ allQuestions s) →
  (size (processingBuffer s) + (avail - added) = BUFFER_SIZE)%nat →
  let s' := fillBuffer_for qs added avail s in
  (∀ q, questionStates s !! q ≠ Some unsolved → questionStates s' !! q ≠ Some unsolved) ∧
  (size (processingBuffer s') = BUFFER_SIZE ∨
   ∀ q, q ∈ qs → questionStates s' !! q ≠ Some unsolved).
Proof.
  induction qs as [|q rest IH]; intros added avail s Hpage Hqs Hsize; simpl.
  { split; [done|]. right. intros q Hq. by apply elem_of_nil in Hq. }
  destruct (avail <=? added)%nat eqn:Hroom.
  { apply Nat.leb_le in Hroom. split; [done|]. left. lia. }
  apply Nat.leb_gt in Hroom.
  case_bool_decide as Hq.
  - fold (enter q s).
    destruct (enter_page q s) as (Hst & Hbuf & Hall & _).
    assert (q ∉ processingBuffer s) as Hnew.
    { intros Hin. destruct (buffer_active _ Hpage q Hin); congruence. }
    destruct (IH (S added) avail (enter q s)) as [Hmono Hfull].
    + apply enter_settled_page; [|done]. apply Hqs. by left.
    + intros q' Hq'. rewrite Hall. apply Hqs. by right.
    + rewrite Hbuf, size_add_new by done. lia.
    + assert (questionStates (enter q s) !! q ≠ Some unsolved) as Hq'.
      { by rewrite Hst, lookup_insert_eq. }
      split.
      * intros q' Hne. apply Hmono. rewrite Hst.
        destruct (decide (q' = q)) as [->|]; [done|]. by rewrite lookup_insert_ne.
      * destruct Hfull as [?|Hrest]; [by left|]. right.
        intros q' [->|Hin]%elem_of_cons; [by apply Hmono|by apply Hrest].
  - destruct (IH added avail s) as [Hmono Hfull]; [done| |done|].
    { intros q' Hq'. apply Hqs. by right. }
    split; [done|]. destruct Hfull as [?|Hrest]; [by left|]. right.
    intros q' [->|Hin]%elem_of_cons; [by apply Hmono|by apply Hrest].
Qed.

Lemma fillBuffer_consistent s :
  settled_page s → (size (processingBuffer s) ≤ BUFFER_SIZE)%nat → consistent (fillBuffer s).
Proof.
  intros Hpage Hsize.
  destruct (fillBuffer_enters
    (λ r s', settled_page s' ∧ allQuestions s' = allQuestions s ∧
             (size (processingBuffer s') + r ≤ BUFFER_SIZE)%nat) s) as (r & Hp & Hall & Hr).
  { intros r q s' Hq Hun (Hp & Hall & Hr).
    destruct (enter_page q s') as (_ & Hbuf & Hall' & _).
    split; [apply enter_settled_page; congruence|].
    split; [congruence|]. rewrite Hbuf. pose proof (size_add_le q (processingBuffer s')). lia. }
  { split; [done|]. split; [done|]. lia. }
  split; [done|lia|].
  intros q Hun. unfold fillBuffer in *.
  case_match eqn:Hroom; [apply Z.leb_le in Hroom; lia|].
  apply Z.leb_gt in Hroom.
  destruct (fillBuffer_for_fills (allQuestions s) 0
              (Z.to_nat (Z.of_nat BUFFER_SIZE - Z.of_nat (size (processingBuffer s)))) s)
    as [_ [Hfull|Hnone]]; [done|done|lia|lia|].
  exfalso. apply (Hnone q); [|done].
  rewrite <- Hall. apply (states_known _ Hp). by rewrite Hun.
Qed.

(** ** Resuming a task *)

Lemma forward_refl s : forward s s.
Proof. intros q a Ha. by exists a. Qed.

Lemma forward_trans s1 s2 s3 : forward s1 s2 → forward s2 s3 → forward s1 s3.
Proof.
  intros H12 H23 q a Ha. destruct (H12 q a Ha) as (b & Hb & Hab).
  destruct (H23 q b Hb) as (c & Hc & Hbc). exists c. split; [done|lia].
Qed.

Lemma forward_same s s' : questionStates s' = questionStates s → forward s s'.
Proof. intros Heq q a Ha. exists a. by rewrite Heq. Qed.

Lemma forward_insert s s' q b :
  questionStates s' = <[q := b]> (questionStates s) →
  (∀ a, questionStates s !! q = Some a → (rank a ≤ rank b)%nat) → forward s s'.
Proof.
  intros Heq Hq q' a Ha. rewrite Heq. destruct (decide (q' = q)) as [->|Hne].
  - exists b. rewrite lookup_insert_eq. eauto.
  - exists a. by rewrite lookup_insert_ne.
Qed.

Lemma enter_forward q s : questionStates s !! q = Some unsolved → forward s (enter q s).
Proof.
  intros Hq. destruct (enter_page q s) as (Hst & _).
  apply (forward_insert _ _ _ _ Hst). intros a Ha. simplify_eq. simpl. lia.
Qed.

Lemma fillBuffer_forward s : forward s (fillBuffer s).
Proof.
  destruct (fillBuffer_enters (λ _ s', forward s s') s) as [_ H]; [|apply forward_refl|done].
  intros _ q s' _ Hq Hfw. eapply forward_trans; [done|]. by apply enter_forward.
Qed.

Lemma fillBuffer_allQuestions s : allQuestions (fillBuffer s) = allQuestions s.
Proof.
  destruct (fillBuffer_enters (λ _ s', allQuestions s' = allQuestions s) s) as [_ H]; [|done..].
  intros _ q s' _ _ <-. by destruct (enter_page q s') as (_ & _ & ? & _).
Qed.

(** [consistent] and [forward] look at three variables only. *)
Lemma consistent_ext s s' :
  questionStates s' = questionStates s → processingBuffer s' = processingBuffer s →
  allQuestions s' = allQuestions s → consistent s → consistent s'.
Proof.
  intros Hst Hbuf Hall [[Hact Hknown] Hbound Hfill].
  split; [split|..]; rewrite ?Hst, ?Hbuf, ?Hall; done.
Qed.

Lemma same_page_consistent s s' : same_page s s' → consistent s → consistent s'.
Proof. intros (? & ? & ? & _). by apply consistent_ext. Qed.

(** Releasing the slot of [q] and refilling. *)
Lemma release_consistent q s :
  settled_page s → (size (processingBuffer s) ≤ BUFFER_SIZE)%nat →
  consistent (fillBuffer (set_processingBuffer (processingBuffer s ∖ {[q]}) s)).
Proof.
  intros [Hact Hknown] Hsize. apply fillBuffer_consistent; simpl.
  - split; simpl; [|done]. intros q' Hq'. apply Hact. set_solver.
  - pose proof (size_remove_le q (processingBuffer s)). lia.
Qed.

Lemma after_extract_spec k v s :
  consistent s →
  match processQuestion_after_extract k v s with
  | Normal s' => consistent s' ∧ forward s s'
  | Thrown s' => s' = s
  end.
Proof.
  intros Hc. unfold processQuestion_after_extract.
  destruct v as [text|]; [|done].
  destruct (questionData s !! cq k) as [data|]; [|done].
  simpl. case_bool_decide as Hin.
  - match goal with |- context [invoke ?c ?k' ?s'] =>
      destruct (invoke_same_page c k' s') as (Hst & Hbuf & Hall & _) end.
    simpl in *. destruct Hc as [[Hact Hknown] Hbound Hfill]. split.
    + split; [split|..]; rewrite ?Hst, ?Hbuf, ?Hall.
      * intros q Hq. destruct (decide (q = cq k)) as [->|Hne].
        -- right. by rewrite lookup_insert_eq.
        -- rewrite lookup_insert_ne by done. by apply Hact.
      * intros q Hq. destruct (decide (q = cq k)) as [->|Hne].
        -- apply Hknown. destruct (Hact _ Hin) as [-> | ->]; done.
        -- rewrite lookup_insert_ne in Hq by done. by apply Hknown.
      * done.
      * intros q Hq. destruct (decide (q = cq k)) as [->|Hne].
        -- by rewrite lookup_insert_eq in Hq.
        -- rewrite lookup_insert_ne in Hq by done. by eapply Hfill.
    + apply (forward_insert _ _ _ _ Hst). intros a Ha.
      destruct (Hact _ Hin) as [Hq|Hq]; rewrite Hq in Ha; simplify_eq; simpl; lia.
  - split; [by apply (consistent_ext s)|by apply forward_same].
Qed.

Lemma after_solve_spec k v s :
  consistent s →
  match processQuestion_after_solve k v s with
  | Normal s' => consistent s' ∧ forward s s'
  | Thrown s' => s' = s
  end.
Proof.
  intros Hc. unfold processQuestion_after_solve.
  destruct v as [text|]; [|done].
  destruct (questionData s !! cq k) as [data|]; [|done].
  simpl. case_bool_decide as Hin.
  - destruct Hc as [[Hact Hknown] Hbound Hfill]. split.
    + apply fillBuffer_consistent; simpl.
      * split; simpl.
        -- intros q Hq. rewrite lookup_insert_ne by set_solver. apply Hact. set_solver.
        -- intros q Hq. destruct (decide (q = cq k)) as [->|Hne].
           ++ apply Hknown. destruct (Hact _ Hin) as [-> | ->]; done.
           ++ rewrite lookup_insert_ne in Hq by done. by apply Hknown.
      * pose proof (size_remove_le (cq k) (processingBuffer s)). lia.
    + eapply forward_trans; [|apply fillBuffer_forward].
      eapply forward_insert; [done|]. intros a _. destruct a; simpl; lia.
  - split; [by apply (consistent_ext s)|by apply forward_same].
Qed.

Lemma try_spec m s :
  consistent s →
  match processQuestion_try m s with
  | Normal s' => consistent s' ∧ forward s s'
  | Thrown s' => s' = s
  end.
Proof.
  intros Hc. unfold processQuestion_try.
  destruct (stage (cont m)); [by apply after_extract_spec|by apply after_solve_spec].
Qed.

Lemma catch_spec q s :
  consistent s →
  consistent (processQuestion_catch q s) ∧ forward s (processQuestion_catch q s).
Proof.
  intros Hc. split.
  - apply release_consistent; [apply Hc|apply Hc].
  - unfold processQuestion_catch.
    eapply forward_trans; [|apply fillBuffer_forward]. by apply forward_same.
Qed.

Lemma resume_spec m s :
  consistent s →
  consistent (processQuestion_resume m s) ∧ forward s (processQuestion_resume m s).
Proof.
  intros Hc. unfold processQuestion_resume.
  pose proof (try_spec m s Hc) as Htry.
  destruct (processQuestion_try m s) as [s'|s']; [done|]. subst s'. by apply catch_spec.
Qed.

(** ** Every event keeps the page consistent *)

Lemma foldl_unsolved_lookup (qs : list string) : ∀ (states : gmap string QState) q,
  foldl (λ states q, <[q := unsolved]> states) states qs !! q =
  if bool_decide (q ∈ qs) then Some unsolved else states !! q.
Proof.
  induction qs as [|q0 qs IH]; intros states q; cbn [foldl].
  { rewrite bool_decide_eq_false_2; [done|]. apply not_elem_of_nil. }
  rewrite IH. case_bool_decide as Hin.
  - rewrite bool_decide_eq_true_2; [done|]. by right.
  - destruct (decide (q = q0)) as [->|Hne].
    + rewrite lookup_insert_eq. rewrite bool_decide_eq_true_2; [done|]. by left.
    + rewrite lookup_insert_ne by done. rewrite bool_decide_eq_false_2; [done|].
      by intros [?|?]%elem_of_cons.
Qed.

Lemma initializeProcessing_consistent s : consistent (initializeProcessing s).
Proof.
  unfold initializeProcessing. apply fillBuffer_consistent; fields.
  - split; fields; [set_solver|].
    intros q. rewrite foldl_unsolved_lookup. case_bool_decide; [done|].
    rewrite lookup_empty. by intros [? ?].
  - rewrite size_empty. lia.
Qed.

Lemma blank_consistent key images now : consistent (blank key images now).
Proof.
  split; [split|..]; fields.
  - set_solver.
  - intros q. rewrite lookup_empty. by intros [? ?].
  - rewrite size_empty. lia.
  - intros q. by rewrite lookup_empty.
Qed.

Lemma load_consistent key images now : consistent (load key images now).
Proof.
  unfold load, renderQuestionButtons. simpl.
  destruct images; [apply blank_consistent|apply initializeProcessing_consistent].
Qed.

Lemma suspend_at_same_page i r s :
  same_page s (fst r) → same_page s (Gate.suspend_at i r).
Proof. destruct r as [s' [l|]]; simpl; done. Qed.

Lemma processAPIQueue_while_same_page s : same_page s (fst (Gate.processAPIQueue_while s)).
Proof. unfold same_page. unfold_gate. split_cases; done. Qed.

Lemma processAPIQueue_shift_same_page s : same_page s (fst (Gate.processAPIQueue_shift s)).
Proof. unfold same_page. unfold_gate. split_cases; done. Qed.

Lemma timer_fired_same_page i s : same_page s (timer_fired i s).
Proof. apply suspend_at_same_page, processAPIQueue_shift_same_page. Qed.

Lemma call_settled_same_page i e r s : same_page s (call_settled i e r s).
Proof.
  unfold call_settled. apply suspend_at_same_page.
  match goal with |- same_page _ (fst (Gate.processAPIQueue_while ?s')) =>
    destruct (processAPIQueue_while_same_page s') as (H1 & H2 & H3 & H4 & H5 & H6 & H7) end.
  unfold same_page. by rewrite H1, H2, H3, H4, H5, H6, H7.
Qed.

(** Every way an event can be taken, as a case analysis on [step]. *)
Lemma step_cases s ev s' :
  step s ev = Some s' →
  (∃ t, ev = EvClock t ∧ clock s ≤ t ∧ s' = set_clock t s) ∨
  (∃ m rest, ev = EvMicrotask ∧ microtasks s = m :: rest ∧
             s' = processQuestion_resume m (set_microtasks rest s)) ∨
  (∃ i wake, ev = EvTimer i ∧ microtasks s = [] ∧ loops s !! i = Some (AwaitTimer wake) ∧
             wake ≤ clock s ∧ s' = timer_fired i s) ∨
  (∃ i r e, ev = EvResponse i r ∧ microtasks s = [] ∧ loops s !! i = Some (AwaitCall e) ∧
            s' = call_settled i e (Client.apiCallFunction r) s) ∨
  (ev = EvResetClick ∧ microtasks s = [] ∧ s' = resetButton_onclick s) ∨
  (∃ key images, ev = EvStorage key images ∧ microtasks s = [] ∧
                 s' = set_storedImages images (set_storedKey key s)).
Proof.
  unfold step. intros Hstep.
  destruct ev, (microtasks s) as [|m rest] eqn:Hm; simplify_eq.
  - right; left. eauto 10.
  - right; right; left.
    destruct (loops s !! i) as [[wake|]|] eqn:Hl; try done.
    destruct (wake <=? clock s) eqn:Hw; simplify_eq. apply Z.leb_le in Hw. eauto 10.
  - right; right; right; left.
    destruct (loops s !! i) as [[|e]|] eqn:Hl; simplify_eq. eauto 10.
  - right; right; right; right; left. eauto.
  - left. destruct (clock s <=? t) eqn:Hw; simplify_eq. apply Z.leb_le in Hw. eauto.
  - left. destruct (clock s <=? t) eqn:Hw; simplify_eq. apply Z.leb_le in Hw. eauto.
  - right; right; right; right; right. eauto 10.
Qed.

(** The case analysis of [step_cases], with names for what each case
    knows. *)
Ltac by_event H :=
  apply step_cases in H;
  destruct H as
    [(t & -> & Hlater & ->)
    |[(m & rest & -> & Hmicro & ->)
    |[(i & wake & -> & Hmicro & Hwaits & Hwoken & ->)
    |[(i & r & e & -> & Hmicro & Hwaits & ->)
    |[(-> & Hmicro & ->)
    |(key & images & -> & Hmicro & ->)]]]]].

Lemma step_consistent s ev s' : consistent s → step s ev = Some s' → consistent s'.
Proof.
  intros Hc Hstep. by_event Hstep.
  - by apply (consistent_ext s).
  - apply resume_spec. by apply (consistent_ext s).
  - eapply same_page_consistent; [apply timer_fired_same_page|done].
  - eapply same_page_consistent; [apply call_settled_same_page|done].
  - apply initializeProcessing_consistent.
  - by apply (consistent_ext s).
Qed.

Lemma step_forward s ev s' :
  consistent s → ev ≠ EvResetClick → step s ev = Some s' → forward s s'.
Proof.
  intros Hc Hev Hstep. by_event Hstep.
  - by apply forward_same.
  - eapply forward_trans; [|apply resume_spec; by apply (consistent_ext s)].
    by apply forward_same.
  - apply forward_same. apply timer_fired_same_page.
  - apply forward_same. apply call_settled_same_page.
  - done.
  - by apply forward_same.
Qed.

Lemma run_consistent evs : ∀ s s', consistent s → run s evs = Some s' → consistent s'.
Proof.
  induction evs as [|ev evs IH]; intros s s' Hc Hrun; simpl in Hrun; [by simplify_eq|].
  destruct (step s ev) as [s1|] eqn:Hstep; [|done].
  eapply IH; [|done]. by eapply step_consistent.
Qed.

Lemma reachable_consistent key images now evs s :
  run (load key images now) evs = Some s → consistent s.
Proof. apply run_consistent, load_consistent. Qed.

(** C5.  Whatever happens on the page after it has loaded (settled
    continuations, timers, responses, storage changes, presses of the
    reset button), the processing buffer never holds more than
    [BUFFER_SIZE] = 3 questions. *)
Theorem buffer_never_exceeds_capacity key images now evs s :
  run (load key images now) evs = Some s →
  (size (processingBuffer s) ≤ BUFFER_SIZE)%nat.
Proof. intros Hrun. by apply (reachable_consistent _ _ _ _ _ Hrun). Qed.

Lemma buffer_never_exceeds_capacity_witness :
  let s := after reset_after_completion four_questions in
  run four_questions reset_after_completion = Some s ∧
  (size (processingBuffer s) ≤ BUFFER_SIZE)%nat.
Proof.
  cbn zeta. split; [vm_compute; reflexivity|].
  apply (buffer_never_exceeds_capacity (Some "key")
           [photo "1"; photo "2"; photo "3"; photo "4"] 1000000 reset_after_completion).
  vm_compute; reflexivity.
Defined.

(** ** The life of a question *)

Lemma lifecycle_from a k :
  (k ≤ rank a)%nat →
  ∃ pre, drop k lifecycle = pre ++ a :: drop (S (rank a)) lifecycle.
Proof.
  intros Hk. exists (take (rank a - k) (drop k lifecycle)).
  destruct a; do 4 (try destruct k as [|k]); simpl in Hk; try lia; reflexivity.
Qed.

Lemma sublist_lifecycle a k (l : list QState) :
  (k ≤ rank a)%nat → sublist l (drop (S (rank a)) lifecycle) →
  sublist (a :: l) (drop k lifecycle).
Proof.
  intros Hk Hl. destruct (lifecycle_from a k Hk) as [pre ->].
  apply sublist_inserts_l. by apply sublist_skip.
Qed.

Lemma rank_inj a b : rank a = rank b → a = b.
Proof. by destruct a, b. Qed.

Lemma states_along_head q s evs a :
  questionStates s !! q = Some a → ∃ tail, states_along q s evs = a :: tail.
Proof. intros Ha. destruct evs; simpl; rewrite Ha; eauto. Qed.

Lemma states_along_forward q evs : ∀ s k,
  consistent s → reset_free evs →
  (∀ a, questionStates s !! q = Some a → (k ≤ rank a)%nat) →
  (questionStates s !! q = None → k = 0%nat) →
  sublist (changes (states_along q s evs)) (drop k lifecycle).
Proof.
  induction evs as [|ev evs IH]; intros s k Hc Hfree Hk Hk0.
  { simpl. destruct (questionStates s !! q) as [a|] eqn:Ha; [|apply sublist_nil_l].
    simpl. apply sublist_lifecycle; [by apply Hk|apply sublist_nil_l]. }
  apply Forall_cons in Hfree as [Hev Hfree]. cbn [states_along].
  destruct (step s ev) as [s'|] eqn:Hstep.
  - pose proof (step_consistent _ _ _ Hc Hstep) as Hc'.
    pose proof (step_forward _ _ _ Hc Hev Hstep) as Hfw.
    destruct (questionStates s !! q) as [a|] eqn:Ha.
    + destruct (Hfw q a Ha) as (b & Hb & Hab).
      destruct (states_along_head q s' evs b Hb) as [tail Htail].
      cbn [app changes]. rewrite Htail. case_decide as Heq.
      * subst b. rewrite <- Htail. apply IH; [done..| |congruence].
        intros a' Ha'. assert (a' = a) as -> by congruence. by apply Hk.
      * apply sublist_lifecycle; [by apply Hk|]. rewrite <- Htail.
        apply IH; [done..| |congruence].
        intros b' Hb'. assert (b' = b) as -> by congruence.
        assert (rank a ≠ rank b) by (intros ?%rank_inj; done). lia.
    + cbn [app]. rewrite (Hk0 eq_refl). apply (IH s' 0%nat); [done..|lia|done].
  - rewrite app_nil_r. destruct (questionStates s !! q) as [a|] eqn:Ha; [|apply sublist_nil_l].
    simpl. apply sublist_lifecycle; [by apply Hk|apply sublist_nil_l].
Qed.

(** C6.  On every page a run can reach, an event other than a press
    of the reset button moves no question backward in
    unsolved, extracted (the state the page labels EXTRACTING),
    solving, solved; and along any run without a press, the states a
    question goes through, repetitions dropped, are a subsequence of
    that chain. *)
Theorem states_only_move_forward key images now evs0 s :
  run (load key images now) evs0 = Some s →
  (∀ ev s', ev ≠ EvResetClick → step s ev = Some s' → forward s s') ∧
  (∀ evs q, reset_free evs → sublist (changes (states_along q s evs)) lifecycle).
Proof.
  intros Hrun. pose proof (reachable_consistent _ _ _ _ _ Hrun) as Hc. split.
  - intros ev s' Hev Hstep. by apply (step_forward s ev).
  - intros evs q Hfree. apply (states_along_forward q evs s 0%nat); [done..|lia|done].
Qed.

Lemma states_only_move_forward_witness :
  let s := after reset_after_completion four_questions in
  run four_questions reset_after_completion = Some s ∧
  (∀ ev s', ev ≠ EvResetClick → step s ev = Some s' → forward s s') ∧
  (∀ evs q, reset_free evs → sublist (changes (states_along q s evs)) lifecycle).
Proof.
  cbn zeta. split; [vm_compute; reflexivity|].
  apply (states_only_move_forward (Some "key")
           [photo "1"; photo "2"; photo "3"; photo "4"] 1000000 reset_after_completion).
  vm_compute; reflexivity.
Defined.

(** ** A task that fails *)

Lemma release_keeps_state q s :
  consistent s →
  let s' := processQuestion_catch q s in
  (q ∉ processingBuffer s') ∧ questionStates s' !! q = questionStates s !! q.
Proof.
  intros Hc. unfold processQuestion_catch.
  set (s1 := set_processingBuffer (processingBuffer s ∖ {[q]}) s).
  destruct (decide (questionStates s !! q = Some unsolved)) as [Hun|Hun].
  - assert (q ∉ processingBuffer s) as Hout.
    { intros Hin. destruct (buffer_active _ Hc q Hin); congruence. }
    pose proof (buffer_filled _ Hc q Hun) as Hfull.
    assert (processingBuffer s1 = processingBuffer s) as Hbuf.
    { subst s1. fields. set_solver. }
    cbn zeta. unfold fillBuffer. rewrite Hbuf.
    case_match eqn:Hroom; [by rewrite Hbuf|]. apply Z.leb_gt in Hroom. lia.
  - destruct (fillBuffer_enters
      (λ _ s', (q ∉ processingBuffer s') ∧ questionStates s' !! q = questionStates s !! q) s1)
      as [_ H]; [| |done].
    + intros _ q' s' _ Hq' [Hout Hsame].
      destruct (enter_page q' s') as (Hst & Hbuf & _).
      assert (q ≠ q') by congruence.
      rewrite Hst, Hbuf, lookup_insert_ne by done. split; [set_solver|done].
    + subst s1. fields. split; [set_solver|done].
Qed.

(** C8.  When a resumed stretch of [processQuestion] throws (the
    awaited promise was rejected, or the entry of [questionData] is
    gone), on any page a run can reach and whatever else is queued:
    the task ends as [fillBuffer] run on the page with the question
    taken out of the buffer, the question is not in the buffer
    afterwards, its state is what it was, and the buffer is full
    again or no question is left unsolved. *)
Theorem escaping_failure_releases_slot_and_refills key images now evs s m pending sT :
  run (load key images now) evs = Some s →
  processQuestion_try m (set_microtasks pending s) = Thrown sT →
  let q := cq (cont m) in
  let s' := processQuestion_resume m (set_microtasks pending s) in
  s' = fillBuffer (set_processingBuffer (processingBuffer sT ∖ {[q]}) sT) ∧
  (q ∉ processingBuffer s') ∧
  questionStates s' !! q = questionStates s !! q ∧
  ((BUFFER_SIZE ≤ size (processingBuffer s'))%nat ∨
   ∀ q', questionStates s' !! q' ≠ Some unsolved).
Proof.
  intros Hrun Htry q s'.
  pose proof (reachable_consistent _ _ _ _ _ Hrun) as Hc.
  assert (consistent (set_microtasks pending s)) as Hc1 by (by apply (consistent_ext s)).
  pose proof (try_spec m _ Hc1) as Hspec. rewrite Htry in Hspec. subst sT.
  assert (s' = processQuestion_catch q (set_microtasks pending s)) as Hs'.
  { subst s'. unfold processQuestion_resume. by rewrite Htry. }
  split; [done|].
  destruct (catch_spec q _ Hc1) as [Hc' _].
  destruct (release_keeps_state q _ Hc1) as [Hout Hsame].
  rewrite <- Hs' in Hc', Hout, Hsame.
  split; [done|]. split; [done|].
  destruct (decide (BUFFER_SIZE ≤ size (processingBuffer s'))%nat) as [|Hroom]; [by left|].
  right. intros q' Hq'. apply Hroom. by apply (buffer_filled _ Hc' q').
Qed.

Lemma escaping_failure_releases_slot_and_refills_witness :
  let s := set_microtasks [] four_questions in
  let s' := processQuestion_resume rejected_extraction s in
  run four_questions [] = Some four_questions ∧
  processQuestion_try rejected_extraction s = Thrown s ∧
  processingBuffer s' = {["1"; "3"; "4"]} ∧
  s' = fillBuffer (set_processingBuffer (processingBuffer s ∖ {["2"]}) s) ∧
  ("2" ∉ processingBuffer s') ∧
  questionStates s' !! "2" = questionStates four_questions !! "2" ∧
  ((BUFFER_SIZE ≤ size (processingBuffer s'))%nat ∨
   ∀ q', questionStates s' !! q' ≠ Some unsolved).
Proof.
  cbn zeta. split; [vm_compute; reflexivity|]. split; [vm_compute; reflexivity|].
  split; [vm_compute; reflexivity|].
  apply (escaping_failure_releases_slot_and_refills (Some "key")
           [photo "1"; photo "2"; photo "3"; photo "4"] 1000000 [] four_questions
           rejected_extraction [] (set_microtasks [] four_questions)).
  - vm_compute; reflexivity.
  - vm_compute; reflexivity.
Defined.

(** ** Order of dispatch *)

Section GateProperty.

(** A property of the rate limiter that submissions preserve is
    preserved by everything the scheduler does. *)
Variable P : State → Prop.
Hypothesis P_ext : ∀ s s', gate_view s = gate_view s' → P s → P s'.
Hypothesis P_submit : ∀ req k s, P s → P (Gate.rateLimitedAPICall req k s).

Lemma invoke_gate c k s : P s → P (invoke c k s).
Proof.
  destruct c; cbn [invoke]; [|by apply P_submit]. by apply P_ext.
Qed.

Lemma enter_gate q s : P s → P (enter q s).
Proof. intros HP. apply invoke_gate. revert HP. by apply P_ext. Qed.

Lemma fillBuffer_gate s : P s → P (fillBuffer s).
Proof.
  intros HP. destruct (fillBuffer_enters (λ _ s', P s') s) as [_ H]; [|done..].
  intros _ q s' _ _. apply enter_gate.
Qed.

Lemma resume_gate m s : P s → P (processQuestion_resume m s).
Proof.
  intros HP. unfold processQuestion_resume, processQuestion_try, processQuestion_catch,
    processQuestion_after_extract, processQuestion_after_solve.
  destruct (stage (cont m)), (value m); try destruct (questionData s !! cq (cont m));
    try case_bool_decide;
    repeat first [apply fillBuffer_gate | apply invoke_gate];
    revert HP; by apply P_ext.
Qed.

Lemma initializeProcessing_gate s :
  P (set_lastAPICallTime 0 (set_isProcessingQueue false (set_apiCallQueue [] s))) →
  P (initializeProcessing s).
Proof. intros HP. apply fillBuffer_gate. revert HP. by apply P_ext. Qed.

End GateProperty.

Lemma fifo_ext s s' : gate_view s = gate_view s' → fifo s → fifo s'.
Proof.
  intros Hv. injection Hv as Hl Hq Hn _ _ _ _. unfold fifo, queued. by rewrite Hl, Hq, Hn.
Qed.

Lemma fifo_exact_ext s s' : gate_view s = gate_view s' → fifo_exact s → fifo_exact s'.
Proof.
  intros Hv. injection Hv as Hl Hq Hn _ _ _ _. unfold fifo_exact, queued. by rewrite Hl, Hq, Hn.
Qed.

(** Taking the head of the queue moves it from [queued] to
    [dispatched]; nothing else in the loop touches either. *)
Lemma processAPIQueue_shift_order s :
  let s' := fst (Gate.processAPIQueue_shift s) in
  submitted (gateLog s') = submitted (gateLog s) ∧ nextCall s' = nextCall s ∧
  dispatched (gateLog s') ++ queued s' = dispatched (gateLog s) ++ queued s.
Proof.
  unfold Gate.processAPIQueue_shift, queued.
  destruct (apiCallQueue s) as [|e rest] eqn:Hq; fields; rewrite ?Hq; [done|].
  cbn [submitted dispatched map]. by rewrite <- app_assoc.
Qed.

Lemma processAPIQueue_while_order s :
  let s' := fst (Gate.processAPIQueue_while s) in
  submitted (gateLog s') = submitted (gateLog s) ∧ nextCall s' = nextCall s ∧
  dispatched (gateLog s') ++ queued s' = dispatched (gateLog s) ++ queued s.
Proof.
  unfold Gate.processAPIQueue_while.
  destruct (apiCallQueue s) as [|e rest] eqn:Hq.
  { unfold queued. fields. by rewrite Hq. }
  case_match; [done|]. apply processAPIQueue_shift_order.
Qed.

Lemma order_kept_fifo s s' : order_kept s s' → fifo s → fifo s'.
Proof. unfold fifo. intros (-> & -> & ->). done. Qed.


Lemma suspend_at_order i r s : order_kept s (fst r) → order_kept s (Gate.suspend_at i r).
Proof. by destruct r as [s' [l|]]. Qed.

Lemma suspend_new_order r s : order_kept s (fst r) → order_kept s (Gate.suspend_new r).
Proof. by destruct r as [s' [l|]]. Qed.

Lemma order_kept_trans s1 s2 s3 : order_kept s1 s2 → order_kept s2 s3 → order_kept s1 s3.
Proof. unfold order_kept. intros (<- & <- & <-) (<- & <- & <-). done. Qed.

Lemma processAPIQueue_order s : order_kept s (Gate.processAPIQueue s).
Proof.
  unfold Gate.processAPIQueue. case_match; [done|].
  apply suspend_new_order.
  eapply order_kept_trans; [|apply processAPIQueue_while_order]. done.
Qed.

Lemma timer_fired_order i s : order_kept s (timer_fired i s).
Proof. apply suspend_at_order, processAPIQueue_shift_order. Qed.

Lemma call_settled_order i e r s : order_kept s (call_settled i e r s).
Proof.
  unfold call_settled. apply suspend_at_order.
  eapply order_kept_trans; [|apply processAPIQueue_while_order]. done.
Qed.

(** A submission joins the back of the queue under the next number. *)
Lemma rateLimitedAPICall_order req k s :
  let s' := Gate.rateLimitedAPICall req k s in
  submitted (gateLog s') = submitted (gateLog s) ++ [nextCall s] ∧
  nextCall s' = S (nextCall s) ∧
  dispatched (gateLog s') ++ queued s' = dispatched (gateLog s) ++ queued s ++ [nextCall s].
Proof.
  unfold Gate.rateLimitedAPICall. cbn zeta.
  match goal with |- context [if _ then Gate.processAPIQueue ?s1 else _] =>
    assert (submitted (gateLog s1) = submitted (gateLog s) ++ [nextCall s] ∧
            nextCall s1 = S (nextCall s) ∧
            dispatched (gateLog s1) ++ queued s1 = dispatched (gateLog s) ++ queued s ++ [nextCall s])
      as Hs1;
    [|destruct (processAPIQueue_order s1) as (H1 & H2 & H3)]
  end.
  { unfold queued. fields. by rewrite map_app. }
  case_match; [|done]. rewrite H1, H2, H3. done.
Qed.

Lemma rateLimitedAPICall_fifo req k s : fifo s → fifo (Gate.rateLimitedAPICall req k s).
Proof.
  intros [Hsub Hord]. destruct (rateLimitedAPICall_order req k s) as (H1 & H2 & H3).
  split; rewrite ?H1, ?H2, ?H3.
  - by rewrite Hsub, seq_S.
  - rewrite app_assoc. by apply sublist_app.
Qed.

Lemma rateLimitedAPICall_fifo_exact req k s :
  fifo_exact s → fifo_exact (Gate.rateLimitedAPICall req k s).
Proof.
  intros [Hsub Hord]. destruct (rateLimitedAPICall_order req k s) as (H1 & H2 & H3).
  split; rewrite ?H1, ?H2, ?H3.
  - by rewrite Hsub, seq_S.
  - by rewrite app_assoc, Hord.
Qed.

Lemma blank_fifo_exact key images now : fifo_exact (blank key images now).
Proof. done. Qed.

Lemma fifo_exact_fifo s : fifo_exact s → fifo s.
Proof. intros [Hsub Hord]. split; [done|]. by rewrite Hord. Qed.

Lemma load_fifo_exact key images now : fifo_exact (load key images now).
Proof.
  unfold load, renderQuestionButtons. fields. destruct images; [done|].
  apply (initializeProcessing_gate fifo_exact fifo_exact_ext rateLimitedAPICall_fifo_exact).
  done.
Qed.

Lemma step_fifo s ev s' : fifo s → step s ev = Some s' → fifo s'.
Proof.
  intros Hf Hstep. by_event Hstep.
  - done.
  - apply (resume_gate fifo fifo_ext rateLimitedAPICall_fifo). done.
  - eapply order_kept_fifo; [apply timer_fired_order|done].
  - eapply order_kept_fifo; [apply call_settled_order|done].
  - apply (initializeProcessing_gate fifo fifo_ext rateLimitedAPICall_fifo).
    destruct Hf as [Hsub Hord]. split; [done|]. unfold queued in *. fields.
    etrans; [|apply Hord]. cbn [map]. rewrite app_nil_r. by apply sublist_inserts_r.
  - done.
Qed.


(** Induction along a run. *)
Lemma run_invariant (P : State → Prop) (allowed : Event → Prop) :
  (∀ s ev s', allowed ev → P s → step s ev = Some s' → P s') →
  ∀ evs s s', Forall allowed evs → P s → run s evs = Some s' → P s'.
Proof.
  intros Hstep. induction evs as [|ev evs IH]; intros s s' Hall HP Hrun; simpl in Hrun.
  { by simplify_eq. }
  apply Forall_cons in Hall as [Hev Hall].
  destruct (step s ev) as [s1|] eqn:Hs1; [|done].
  eapply IH; [done| |done]. by eapply Hstep.
Qed.

Lemma run_fifo key images now evs s : run (load key images now) evs = Some s → fifo s.
Proof.
  apply (run_invariant fifo (λ _, True)); [|by apply Forall_true|].
  - intros ????. apply step_fifo.
  - apply fifo_exact_fifo, load_fifo_exact.
Qed.



(** ** Pace of dispatch *)

Lemma paced_ext s s' : gate_view s = gate_view s' → paced s → paced s'.
Proof.
  intros Hv [H0 [H1 H2 H3]]. injection Hv as Hl Hq Hn Ht Hf Hlo Hc.
  split; [|split]; unfold one_loop in *;
    rewrite <- ?Hl, <- ?Hq, <- ?Ht, <- ?Hf, <- ?Hlo, <- ?Hc; done.
Qed.

Lemma all_done_cons ev log :
  (∀ id t, ev ≠ Dispatched id t) → all_done log → all_done (ev :: log).
Proof.
  intros Hev Hd id t [Heq|Hin]%elem_of_cons; [exfalso; by eapply Hev|].
  destruct (Hd id t Hin) as [tc Htc]. exists tc. by right.
Qed.

Lemma done_except_cons x ev log :
  (∀ id t, ev ≠ Dispatched id t) → done_except x log → done_except x (ev :: log).
Proof.
  intros Hev Hd id t [Heq|Hin]%elem_of_cons; [exfalso; by eapply Hev|].
  destruct (Hd id t Hin) as [?|[tc Htc]]; [by left|]. right. exists tc. by right.
Qed.

(** The loop starts the head of the queue once the floor has passed. *)
Lemma shift_timed s e rest :
  timed s → all_done (gateLog s) → apiCallQueue s = e :: rest →
  lastAPICallTime s + RATE_LIMIT_DELAY ≤ clock s →
  ∃ s', Gate.processAPIQueue_shift s = (s', Some (AwaitCall e)) ∧
        timed s' ∧ done_except (callId e) (gateLog s') ∧
        (∃ t, Dispatched (callId e) t ∈ gateLog s') ∧
        isProcessingQueue s' = isProcessingQueue s ∧ loops s' = loops s.
Proof.
  intros [Hpast Hfloor Hlatest] Hdone Hq Hlate. unfold Gate.processAPIQueue_shift.
  rewrite Hq. eexists. split; [done|]. fields. split; [split|]; fields.
  - intros id t [?|Hin]%elem_of_cons; [done|]. by apply (Hpast id).
  - split; [|done]. intros a ta Ha. destruct (Hdone a ta Ha) as [tc Htc].
    exists tc. split; [done|]. destruct (Hpast a tc Htc). lia.
  - done.
  - split; [|split; [|done]].
    + intros id t [?|Hin]%elem_of_cons; [left; congruence|].
      right. destruct (Hdone id t Hin) as [tc Htc]. exists tc. by right.
    + eexists. by left.
Qed.

(** One round of the loop, entered with every call back. *)
Lemma while_timed s :
  timed s → all_done (gateLog s) →
  match Gate.processAPIQueue_while s with
  | (s', None) => apiCallQueue s = [] ∧ s' = set_isProcessingQueue false s
  | (s', Some (AwaitTimer wake)) =>
      s' = s ∧ apiCallQueue s ≠ [] ∧ wake = lastAPICallTime s + RATE_LIMIT_DELAY
  | (s', Some (AwaitCall e)) =>
      timed s' ∧ done_except (callId e) (gateLog s') ∧
      (∃ t, Dispatched (callId e) t ∈ gateLog s') ∧
      isProcessingQueue s' = isProcessingQueue s ∧ loops s' = loops s
  end.
Proof.
  intros Ht Hdone. unfold Gate.processAPIQueue_while.
  destruct (apiCallQueue s) as [|e rest] eqn:Hq; [done|].
  destruct (clock s - lastAPICallTime s <? RATE_LIMIT_DELAY) eqn:Hwait.
  { split; [done|]. split; [done|]. lia. }
  apply Z.ltb_ge in Hwait.
  destruct (shift_timed s e rest) as (s' & -> & ?); [done..|lia|done].
Qed.

Lemma timed_ext s s' :
  gateLog s' = gateLog s → lastAPICallTime s' = lastAPICallTime s → clock s' = clock s →
  timed s → timed s'.
Proof. intros Hl Ht Hc [H1 H2 H3]. split; rewrite ?Hl, ?Ht, ?Hc; done. Qed.

Lemma rateLimitedAPICall_paced req k s : paced s → paced (Gate.rateLimitedAPICall req k s).
Proof.
  intros [Hloop Htimed]. unfold Gate.rateLimitedAPICall. cbn zeta.
  set (e := {| callId := nextCall s; request := req; waiter := k |}).
  set (s1 := set_apiCallQueue _ _).
  assert (timed s1) as Ht1.
  { destruct Htimed as [H1 H2 H3]. split; subst s1; fields.
    - intros id t [?|Hin]%elem_of_cons; [done|]. by apply (H1 id).
    - done.
    - done. }
  assert (apiCallQueue s1 = apiCallQueue s ++ [e]) as Hq1 by done.
  assert (gateLog s1 = Submitted (nextCall s) :: gateLog s) as Hl1 by done.
  assert (isProcessingQueue s1 = isProcessingQueue s) as Hf1 by done.
  assert (loops s1 = loops s) as Hlo1 by done.
  assert (lastAPICallTime s1 = lastAPICallTime s) as Hla1 by done.
  clearbody s1. unfold one_loop in Hloop.
  destruct (loops s) as [|[wake|e0] [|]] eqn:Hloops; try done.
  - destruct Hloop as (Hflag & Hqueue & Hdone). rewrite Hf1, Hflag. cbn [negb].
    unfold Gate.processAPIQueue. rewrite Hf1, Hflag, Hq1, Hqueue. cbn [orb app length Nat.eqb].
    set (s2 := set_isProcessingQueue true s1).
    assert (timed s2) as Ht2 by (by apply (timed_ext s1)).
    assert (all_done (gateLog s2)) as Hd2.
    { subst s2. fields. rewrite Hl1. by apply all_done_cons. }
    pose proof (while_timed s2 Ht2 Hd2) as Hw.
    destruct (Gate.processAPIQueue_while s2) as [s' [[wake|e0]|]]; cbn [Gate.suspend_new].
    + destruct Hw as (-> & Hne & ->). split.
      * unfold one_loop. subst s2. fields. rewrite Hlo1. cbn [app]. done.
      * by apply (timed_ext s2).
    + destruct Hw as (Ht' & Hd' & Hst' & Hf' & Hlo'). split.
      * unfold one_loop. fields. rewrite Hlo'. subst s2. fields. rewrite Hlo1. cbn [app].
        by rewrite Hf'.
      * by apply (timed_ext s').
    + destruct Hw as [Hnil _]. subst s2. fields. by rewrite Hq1, Hqueue in Hnil.
  - destruct Hloop as (Hflag & Hqueue & Hwake & Hdone). rewrite Hf1, Hflag. cbn [negb].
    split; [|done]. unfold one_loop. rewrite Hlo1, Hf1, Hq1, Hl1, Hla1.
    split; [done|]. split; [by destruct (apiCallQueue s)|]. split; [done|].
    by apply all_done_cons.
  - destruct Hloop as (Hflag & Hdone). rewrite Hf1, Hflag. cbn [negb].
    split; [|done]. unfold one_loop. rewrite Hlo1, Hf1, Hl1.
    split; [done|]. destruct Hdone as [Hdone [t Hst]].
    split; [by apply done_except_cons|]. exists t. by right.
Qed.

Lemma timer_fired_paced i wake s :
  paced s → loops s !! i = Some (AwaitTimer wake) → wake ≤ clock s → paced (timer_fired i s).
Proof.
  intros [Hloop Htimed] Hi Hwake. unfold one_loop in Hloop.
  destruct (loops s) as [|[wake0|e0] [|]] eqn:Hloops; try done.
  - destruct i; [|done]. cbn in Hi. simplify_eq.
    destruct Hloop as (Hflag & Hqueue & -> & Hdone).
    destruct (apiCallQueue s) as [|e rest] eqn:Hq; [done|].
    destruct (shift_timed s e rest) as (s' & Hs' & Ht' & Hd' & Hst' & Hf' & Hlo'); [done..|].
    unfold timer_fired. rewrite Hs'. cbn [Gate.suspend_at]. split.
    + unfold one_loop. fields. rewrite Hlo', Hloops. cbn. by rewrite Hf'.
    + by apply (timed_ext s').
  - destruct i as [|[|]]; done.
Qed.

Lemma call_settled_paced i e r s :
  paced s → loops s !! i = Some (AwaitCall e) → paced (call_settled i e r s).
Proof.
  intros [Hloop [Hpast Hfloor Hlatest]] Hi. unfold one_loop in Hloop.
  destruct (loops s) as [|[wake0|e0] [|]] eqn:Hloops; try done.
  { destruct i as [|[|]]; done. }
  destruct i; [|done]. cbn in Hi. simplify_eq.
  destruct Hloop as (Hflag & Hdone & Hstarted).
  unfold call_settled.
  set (s1 := settle _ _ _).
  assert (gateLog s1 = Completed (callId e) (clock s) :: gateLog s) as Hl1 by done.
  assert (lastAPICallTime s1 = clock s) as Hla1 by done.
  assert (clock s1 = clock s) as Hc1 by done.
  assert (loops s1 = loops s) as Hlo1 by done.
  assert (isProcessingQueue s1 = isProcessingQueue s) as Hf1 by done.
  assert (timed s1) as Ht1.
  { split; rewrite ?Hl1, ?Hla1, ?Hc1.
    - intros id t [?|Hin]%elem_of_cons; [by simplify_eq|].
      destruct (Hpast id t Hin). lia.
    - done.
    - done. }
  assert (all_done (gateLog s1)) as Hd1.
  { rewrite Hl1. intros id t [?|Hin]%elem_of_cons; [done|].
    destruct (Hdone id t Hin) as [->|[tc Htc]].
    - exists (clock s). by left.
    - exists tc. by right. }
  clearbody s1.
  pose proof (while_timed s1 Ht1 Hd1) as Hw.
  destruct (Gate.processAPIQueue_while s1) as [s' [[wake|e0]|]]; cbn [Gate.suspend_at].
  - destruct Hw as (-> & Hne & ->). split; [|by apply (timed_ext s1)].
    unfold one_loop. fields. rewrite Hlo1, Hloops. cbn. by rewrite Hf1.
  - destruct Hw as (Ht' & Hd' & Hst' & Hf' & Hlo'). split; [|by apply (timed_ext s')].
    unfold one_loop. fields. rewrite Hlo', Hlo1, Hloops. cbn. by rewrite Hf', Hf1.
  - destruct Hw as [Hnil ->]. split; [|by apply (timed_ext s1)].
    unfold one_loop. fields. rewrite Hlo1, Hloops. cbn. done.
Qed.

Lemma blank_paced key images now : paced (blank key images now).
Proof.
  split; [|split]; try done.
  - split; [done|]. split; [done|]. intros id t Hin. by apply elem_of_nil in Hin.
  - intros id t Hin. by apply elem_of_nil in Hin.
Qed.

Lemma load_paced key images now : paced (load key images now).
Proof.
  unfold load, renderQuestionButtons. fields. destruct images; [apply blank_paced|].
  apply (initializeProcessing_gate paced paced_ext rateLimitedAPICall_paced).
  eapply paced_ext; [|apply (blank_paced key [] now)]. done.
Qed.

Lemma step_paced s ev s' : ev ≠ EvResetClick → paced s → step s ev = Some s' → paced s'.
Proof.
  intros Hev Hp Hstep. by_event Hstep.
  - destruct Hp as [Hloop [Hpast Hfloor Hlatest]]. split; [done|]. split; [|done..].
    fields. intros id t' Hin. destruct (Hpast id t' Hin). lia.
  - apply (resume_gate paced paced_ext rateLimitedAPICall_paced). revert Hp. by apply paced_ext.
  - by eapply timer_fired_paced.
  - by eapply call_settled_paced.
  - done.
  - revert Hp. by apply paced_ext.
Qed.

Lemma run_paced key images now evs s :
  reset_free evs → run (load key images now) evs = Some s → paced s.
Proof.
  intros Hfree. apply (run_invariant paced (λ ev, ev ≠ EvResetClick)); [|done|apply load_paced].
  intros ????. by apply step_paced.
Qed.

Lemma floor_kept_app post pre : floor_kept (post ++ pre) → floor_kept pre.
Proof. induction post as [|ev post IH]; [done|]. intros [_ H]. by apply IH. Qed.

Lemma dispatched_app l1 l2 : dispatched (l1 ++ l2) = dispatched l2 ++ dispatched l1.
Proof.
  induction l1 as [|[]] ; cbn [app dispatched]; rewrite ?app_nil_r, ?IHl1, ?app_assoc; done.
Qed.

Lemma dispatched_elem id t log : Dispatched id t ∈ log → id ∈ dispatched log.
Proof.
  induction log as [|ev log IH]; [by intros ?%elem_of_nil|].
  intros [<-|Hin]%elem_of_cons; cbn [dispatched]; [set_solver|].
  destruct ev; try set_solver.
Qed.

Lemma floor_kept_rate_floor log : NoDup (dispatched log) → floor_kept log → rate_floor log.
Proof.
  intros Hnodup Hfloor post b tb mid a ta pre -> Hmid.
  pose proof (floor_kept_app _ _ Hfloor) as [Hb Hrest].
  destruct (Hb a ta) as (tc & Hin & Htc); [set_solver|].
  exists tc. split; [|done].
  apply elem_of_app in Hin as [Hin|Hin]; [done|].
  apply elem_of_cons in Hin as [?|Hin]; [done|]. exfalso.
  apply list_elem_of_split in Hin as (p1 & p2 & ->).
  pose proof (floor_kept_app _ _ Hrest) as [_ Hpre].
  pose proof (floor_kept_app _ _ Hpre) as [[ta' Ha'] _].
  apply dispatched_elem in Ha'.
  rewrite !dispatched_app in Hnodup. cbn [dispatched] in Hnodup.
  rewrite !dispatched_app in Hnodup. cbn [dispatched] in Hnodup.
  rewrite !dispatched_app in Hnodup. cbn [dispatched] in Hnodup.
  do 3 apply NoDup_app in Hnodup as (Hnodup & _ & _).
  apply NoDup_app in Hnodup as (_ & Hdisj & _).
  apply (Hdisj a); [apply elem_of_app; by left|by apply list_elem_of_singleton].
Qed.

Lemma fifo_NoDup s : fifo s → NoDup (dispatched (gateLog s)).
Proof.
  intros [Hsub Hord]. rewrite Hsub in Hord.
  assert (NoDup (dispatched (gateLog s) ++ queued s)) as Hnodup.
  { eapply sublist_NoDup; [apply NoDup_seq|done]. }
  by apply NoDup_app in Hnodup as [? _].
Qed.

(** C3, amended.  As long as the reset button has not been pressed:
    of two calls dispatched one after the other, the first has come
    back in between and the second was started [RATE_LIMIT_DELAY] or
    more after that; at most one call is out at a time; and a drain
    loop that waits is woken exactly [RATE_LIMIT_DELAY] after the
    latest completion, however long that call took. *)
Theorem rate_floor_without_reset key images now evs s :
  run (load key images now) evs = Some s → reset_free evs →
  rate_floor (gateLog s) ∧
  (length (in_flight s) ≤ 1)%nat ∧
  (∀ wake, AwaitTimer wake ∈ loops s →
           wake = default 0 (latest_completion (gateLog s)) + RATE_LIMIT_DELAY).
Proof.
  intros Hrun Hfree.
  destruct (run_paced _ _ _ _ _ Hfree Hrun) as [Hloop [Hpast Hfloor Hlatest]].
  split; [|split].
  - apply floor_kept_rate_floor; [|done]. by eapply fifo_NoDup, run_fifo.
  - unfold in_flight, one_loop in *. destruct (loops s) as [|[] [|]]; cbn; try done; lia.
  - intros wake Hin. unfold one_loop in Hloop. rewrite <- Hlatest.
    destruct (loops s) as [|[] [|]]; try done.
    + by apply elem_of_nil in Hin.
    + apply list_elem_of_singleton in Hin. simplify_eq. by destruct Hloop as (_ & _ & -> & _).
    + apply list_elem_of_singleton in Hin. done.
Qed.

Lemma reset_free_two_calls : reset_free two_calls.
Proof. repeat constructor; done. Qed.

Lemma rate_floor_without_reset_witness :
  let s := after two_calls one_question in
  run one_question two_calls = Some s ∧ reset_free two_calls ∧
  dispatched (gateLog s) = [0%nat; 1%nat] ∧
  rate_floor (gateLog s) ∧
  (length (in_flight s) ≤ 1)%nat ∧
  (∀ wake, AwaitTimer wake ∈ loops s →
           wake = default 0 (latest_completion (gateLog s)) + RATE_LIMIT_DELAY).
Proof.
  cbn zeta. split; [vm_compute; reflexivity|]. split; [apply reset_free_two_calls|].
  split; [vm_compute; reflexivity|].
  apply (rate_floor_without_reset (Some "key") [photo "1"] 1000000 two_calls).
  - vm_compute; reflexivity.
  - apply reset_free_two_calls.
Defined.

(** ** One continuation for each question in the buffer *)

Lemma processAPIQueue_shift_round s : round_of s (Gate.processAPIQueue_shift s).
Proof.
  unfold round_of, carried, Gate.processAPIQueue_shift.
  destruct (apiCallQueue s) as [|e rest] eqn:Hq; fields; rewrite ?Hq; [done|].
  cbn. split; [done|]. split; [lia|done].
Qed.

Lemma processAPIQueue_while_round s : round_of s (Gate.processAPIQueue_while s).
Proof.
  unfold Gate.processAPIQueue_while.
  destruct (apiCallQueue s) as [|e rest] eqn:Hq.
  { unfold round_of, carried. fields. by rewrite Hq. }
  case_match; [|apply processAPIQueue_shift_round].
  unfold round_of, carried. fields. by rewrite Hq.
Qed.

Lemma suspend_new_pending s r :
  round_of s r →
  pending (Gate.suspend_new r) ≡ₚ pending s ∧
  (gate_work (Gate.suspend_new r) ≤ gate_work s)%nat ∧
  microtasks (Gate.suspend_new r) = microtasks s.
Proof.
  unfold round_of, carried, pending, gate_work, in_flight.
  destruct r as [s' [[wake|e]|]]; cbn [fst snd Gate.suspend_new]; fields;
    intros (Hq & Hlen & -> & ->); rewrite Hq; rewrite ?omap_app, ?fmap_app, ?length_app;
    cbn in *; rewrite ?app_nil_r.
  - split; [done|]. split; [lia|done].
  - split; [solve_Permutation|]. split; [lia|done].
  - split; [done|]. split; [lia|done].
Qed.

(** The only drain loop going round. *)
Lemma suspend_at_pending s r l :
  round_of s r → loops s = [l] →
  pending (Gate.suspend_at 0 r) ++ (waiter <$> in_flight s) ≡ₚ pending s ∧
  (gate_work (Gate.suspend_at 0 r) + length (in_flight s) + length (carried r)
   = gate_work s)%nat ∧
  microtasks (Gate.suspend_at 0 r) = microtasks s.
Proof.
  unfold round_of, carried, pending, gate_work, in_flight.
  destruct r as [s' [[wake|e]|]]; cbn [fst snd Gate.suspend_at]; fields;
    intros (Hq & Hlen & -> & Hlo) Hl; rewrite Hl in *; rewrite Hlo, Hq;
    cbn in *; rewrite ?fmap_app, ?length_app, ?app_nil_r; cbn.
  all: split; [solve_Permutation|split; [lia|done]].
Qed.

(** A submission adds its continuation and at most two units of
    work. *)
Lemma rateLimitedAPICall_pending req k s :
  let s' := Gate.rateLimitedAPICall req k s in
  pending s' ≡ₚ k :: pending s ∧ (gate_work s' ≤ gate_work s + 2)%nat ∧
  microtasks s' = microtasks s.
Proof.
  unfold Gate.rateLimitedAPICall. cbn zeta.
  set (s1 := set_apiCallQueue _ _).
  assert (pending s1 ≡ₚ k :: pending s ∧ (gate_work s1 ≤ gate_work s + 2)%nat ∧
          microtasks s1 = microtasks s) as (Hp1 & Hw1 & Hm1).
  { unfold pending, gate_work, in_flight. subst s1. fields.
    rewrite fmap_app, length_app. cbn. split; [solve_Permutation|]. split; [lia|done]. }
  clearbody s1. case_match; [|done].
  unfold Gate.processAPIQueue. case_match; [done|].
  set (s2 := set_isProcessingQueue true s1).
  destruct (suspend_new_pending s2 (Gate.processAPIQueue_while s2)) as (Hp & Hw & Hm).
  { apply processAPIQueue_while_round. }
  rewrite Hp, Hm. split; [done|]. split; [|done].
  etrans; [apply Hw|]. done.
Qed.

Lemma invoke_pending c k s :
  let s' := invoke c k s in
  pending s' ≡ₚ k :: pending s ∧ (gate_work s' ≤ gate_work s + 2)%nat ∧
  (answered s → answered s').
Proof.
  destruct c as [text|req]; cbn [invoke].
  - unfold pending, gate_work, in_flight, answered, settle. fields.
    rewrite fmap_app. cbn. split; [solve_Permutation|]. split; [lia|].
    intros Ha. apply Forall_app. split; [done|]. apply Forall_singleton. by eexists.
  - destruct (rateLimitedAPICall_pending req k s) as (Hp & Hw & Hm).
    unfold callTogetherAPI, answered. by rewrite Hm.
Qed.

Lemma tracked_by_perm s l1 l2 : l1 ≡ₚ l2 → tracked_by s l1 → tracked_by s l2.
Proof.
  intros Hperm [H1 H2 H3 H4 H5 H6]. split; try done.
  - by rewrite <- Hperm.
  - by rewrite <- Hperm.
  - intros q Hq. rewrite <- Hperm. by apply H6.
Qed.

Lemma tracked_by_ext s s' l :
  questionStates s' = questionStates s → processingBuffer s' = processingBuffer s →
  allQuestions s' = allQuestions s → questionData s' = questionData s →
  tracked_by s l → tracked_by s' l.
Proof.
  intros Hst Hbuf Hall Hdata [H1 H2 H3 H4 H5 H6].
  split; unfold cont_ok in *; rewrite ?Hst, ?Hbuf, ?Hall, ?Hdata; done.
Qed.

Lemma page_work_insert_out (states : gmap string QState) qs q b :
  q ∉ qs → page_work (<[q := b]> states) qs = page_work states qs.
Proof.
  unfold page_work. induction qs as [|q' qs IH]; [done|].
  intros [Hne Hout]%not_elem_of_cons. cbn [sum_list_with].
  rewrite lookup_insert_ne by done. by rewrite IH.
Qed.

Lemma page_work_insert (states : gmap string QState) qs q b :
  NoDup qs → q ∈ qs →
  (page_work (<[q := b]> states) qs + owed (states !! q) =
   page_work states qs + owed (Some b))%nat.
Proof.
  intros Hnodup. induction Hnodup as [|q' qs Hout Hnodup IH]; [by intros ?%elem_of_nil|].
  intros [->|Hin]%elem_of_cons.
  - pose proof (page_work_insert_out states qs q' b Hout) as Heq.
    unfold page_work in *. cbn [sum_list_with]. rewrite lookup_insert_eq, Heq. lia.
  - specialize (IH Hin). unfold page_work in *. cbn [sum_list_with].
    rewrite lookup_insert_ne by (intros ->; done). lia.
Qed.

Lemma cont_ok_other s s' k q a d :
  questionStates s' = <[q := a]> (questionStates s) →
  questionData s' = <[q := d]> (questionData s) →
  cq k ≠ q → cont_ok s k → cont_ok s' k.
Proof.
  intros Hst Hdata Hne [Hd Hs]. unfold cont_ok. rewrite Hst, Hdata.
  by rewrite !lookup_insert_ne.
Qed.

Lemma tracked_by_keys s conts k :
  tracked_by s conts → k ∈ conts →
  questionStates s !! cq k = Some extracted ∨ questionStates s !! cq k = Some solving.
Proof.
  intros Ht Hin. destruct (proj1 (Forall_forall _ _) (tr_conts _ _ Ht) k Hin) as [_ Hs].
  rewrite Hs. destruct (stage k); eauto.
Qed.

(** A question enters the buffer. *)
Lemma tracked_by_enter s s' conts tid q :
  tracked_by s conts → q ∈ allQuestions s → questionStates s !! q = Some unsolved →
  questionStates s' = <[q := extracted]> (questionStates s) →
  processingBuffer s' = {[q]} ∪ processingBuffer s →
  allQuestions s' = allQuestions s →
  questionData s' = <[q := freshData]> (questionData s) →
  tracked_by s' ({| taskId := tid; cq := q; stage := AwaitExtract |} :: conts).
Proof.
  intros Ht Hq Hun Hst Hbuf Hall Hdata.
  assert (∀ k, k ∈ conts → cq k ≠ q) as Hfresh.
  { intros k Hk Heq. destruct (tracked_by_keys _ _ _ Ht Hk); congruence. }
  destruct Ht as [H1 H2 H3 H4 H5 H6]. split; rewrite ?Hst, ?Hbuf, ?Hall.
  - done.
  - intros q' Hq'. destruct (decide (q' = q)) as [->|Hne].
    + by rewrite lookup_insert_eq.
    + rewrite lookup_insert_ne by done. by apply H2.
  - intros q' Hq'. destruct (decide (q' = q)) as [->|Hne]; [set_solver|].
    rewrite lookup_insert_ne in Hq' by done. apply H3 in Hq'. set_solver.
  - cbn. apply NoDup_cons. split; [|done].
    intros (k & Heq & Hk)%list_elem_of_fmap. by apply (Hfresh k).
  - apply Forall_cons. split.
    + split; cbn; [by rewrite Hdata, lookup_insert_eq|by rewrite Hst, lookup_insert_eq].
    + apply Forall_forall. intros k Hk.
      eapply cont_ok_other; [done..|by apply Hfresh|].
      by apply (proj1 (Forall_forall _ _) H5).
  - intros q' [->%elem_of_singleton|Hq']%elem_of_union; cbn; [by left|]. right. by apply H6.
Qed.

(** Extraction is over for the question of [k]. *)
Lemma tracked_by_advance s s' conts k k' d :
  tracked_by s (k :: conts) → stage k = AwaitExtract →
  cq k' = cq k → (∃ text, stage k' = AwaitSolve text) →
  questionStates s' = <[cq k := solving]> (questionStates s) →
  processingBuffer s' = processingBuffer s →
  allQuestions s' = allQuestions s →
  questionData s' = <[cq k := d]> (questionData s) →
  tracked_by s' (k' :: conts).
Proof.
  intros [H1 H2 H3 H4 H5 H6] Hstage Hcq [text Hstage'] Hst Hbuf Hall Hdata.
  cbn in H4. apply NoDup_cons in H4 as [Hfresh H4].
  apply Forall_cons in H5 as [[Hd Hs] H5]. rewrite Hstage in Hs.
  split; rewrite ?Hst, ?Hbuf, ?Hall.
  - done.
  - intros q' Hq'. destruct (decide (q' = cq k)) as [->|Hne].
    + by rewrite lookup_insert_eq.
    + rewrite lookup_insert_ne by done. by apply H2.
  - intros q' Hq'. destruct (decide (q' = cq k)) as [->|Hne]; [apply H3; by left|].
    rewrite lookup_insert_ne in Hq' by done. by apply H3.
  - cbn. rewrite Hcq. by apply NoDup_cons.
  - apply Forall_cons. split.
    + split; rewrite Hcq, ?Hstage'; [by rewrite Hdata, lookup_insert_eq|].
      by rewrite Hst, lookup_insert_eq.
    + apply Forall_forall. intros k0 Hk0.
      eapply cont_ok_other; [done..| |by apply (proj1 (Forall_forall _ _) H5)].
      intros Heq. apply Hfresh. rewrite <- Heq. by apply list_elem_of_fmap_2.
  - intros q' Hq'. cbn. rewrite Hcq. by apply H6.
Qed.

(** The question of [k] is solved and leaves the buffer. *)
Lemma tracked_by_finish s s' conts k d :
  tracked_by s (k :: conts) →
  questionStates s' = <[cq k := solved]> (questionStates s) →
  processingBuffer s' = processingBuffer s ∖ {[cq k]} →
  allQuestions s' = allQuestions s →
  questionData s' = <[cq k := d]> (questionData s) →
  tracked_by s' conts.
Proof.
  intros [H1 H2 H3 H4 H5 H6] Hst Hbuf Hall Hdata.
  cbn in H4. apply NoDup_cons in H4 as [Hfresh H4].
  apply Forall_cons in H5 as [_ H5].
  split; rewrite ?Hst, ?Hbuf, ?Hall.
  - done.
  - intros q' Hq'. destruct (decide (q' = cq k)) as [->|Hne].
    + by rewrite lookup_insert_eq.
    + rewrite lookup_insert_ne by done. by apply H2.
  - intros q' Hq'. destruct (decide (q' = cq k)) as [->|Hne].
    + rewrite lookup_insert_eq in Hq'. by destruct Hq'.
    + rewrite lookup_insert_ne in Hq' by done. apply H3 in Hq'. set_solver.
  - done.
  - apply Forall_forall. intros k0 Hk0.
    eapply cont_ok_other; [done..| |by apply (proj1 (Forall_forall _ _) H5)].
    intros Heq. apply Hfresh. rewrite <- Heq. by apply list_elem_of_fmap_2.
  - intros q' [Hq' Hne]%elem_of_difference.
    apply H6 in Hq'. cbn in Hq'. apply elem_of_cons in Hq' as [->|Hq']; [set_solver|done].
Qed.

Lemma enter_tracked q s :
  tracked s → q ∈ allQuestions s → questionStates s !! q = Some unsolved →
  tracked (enter q s) ∧ (work (enter q s) + 1 ≤ work s)%nat.
Proof.
  intros [Ht Ha] Hq Hun.
  destruct (enter_page q s) as (Hst & Hbuf & Hall & Hdata & _).
  unfold enter, processQuestion in *. cbn zeta in *.
  match goal with |- context [invoke ?c ?k ?s1] =>
    destruct (invoke_pending c k s1) as (Hp & Hw & Hans); set (s' := invoke c k s1) in * end.
  split; [split|].
  - eapply tracked_by_perm; [symmetry; apply Hp|].
    eapply tracked_by_enter; [exact Ht|done..].
  - by apply Hans.
  - unfold work. rewrite Hst, Hall.
    pose proof (page_work_insert (questionStates s) (allQuestions s) q extracted
                  (tr_nodup _ _ Ht) Hq) as Hpw.
    rewrite Hun in Hpw. cbn [owed] in Hpw.
    unfold gate_work, in_flight in *. fields. lia.
Qed.

Lemma fillBuffer_tracked s :
  tracked s → tracked (fillBuffer s) ∧ (work (fillBuffer s) ≤ work s)%nat.
Proof.
  intros Ht.
  destruct (fillBuffer_enters
    (λ _ s', tracked s' ∧ allQuestions s' = allQuestions s ∧ (work s' ≤ work s)%nat) s)
    as (_ & ? & _ & ?); [| |done].
  - intros _ q s' Hq Hun (Ht' & Hall & Hw).
    destruct (enter_tracked q s' Ht') as [Ht'' Hw'']; [congruence|done|].
    split; [done|]. split; [|lia].
    destruct (enter_page q s') as (_ & _ & -> & _). done.
  - done.
Qed.

(** A settled continuation runs: the question moves on, and less
    work is left. *)
Lemma resume_tracked m rest s :
  consistent s → tracked s → microtasks s = m :: rest →
  let s' := processQuestion_resume m (set_microtasks rest s) in
  tracked s' ∧ (work s' + 1 ≤ work s)%nat.
Proof.
  intros Hc [Ht Ha] Hm.
  set (s0 := set_microtasks rest s).
  assert (pending s = cont m :: pending s0) as Hp0.
  { unfold pending. subst s0. fields. by rewrite Hm. }
  assert (answered s0) as Ha0.
  { unfold answered in *. subst s0. fields. rewrite Hm in Ha. by apply Forall_cons in Ha as [_ ?]. }
  assert (∃ text, value m = Ret text) as [text Hv].
  { unfold answered in Ha. rewrite Hm in Ha. by apply Forall_cons in Ha as [? _]. }
  rewrite Hp0 in Ht.
  assert (tracked_by s0 (cont m :: pending s0)) as Ht0 by (by apply (tracked_by_ext s)).
  assert (work s0 = work s) as Hw0 by done.
  assert (cq (cont m) ∈ allQuestions s0) as Hall.
  { apply (states_known _ Hc).
    assert (cont m ∈ cont m :: pending s0) as Hin by (by left).
    destruct (tracked_by_keys _ _ _ Ht Hin) as [Hs | Hs]; subst s0; fields; by rewrite Hs. }
  clearbody s0. clear Ht Hp0 Ha Hm.
  pose proof (tr_conts _ _ Ht0) as Hk. apply Forall_cons in Hk as [[[d Hd] Hs] _].
  assert (cq (cont m) ∈ processingBuffer s0) as Hin.
  { apply (tr_active _ _ Ht0). rewrite Hs. destruct (stage (cont m)); eauto. }
  unfold processQuestion_resume, processQuestion_try.
  destruct (stage (cont m)) as [|prev] eqn:Hstage.
  - unfold processQuestion_after_extract. rewrite Hv, Hd. cbn zeta. fields.
    rewrite bool_decide_eq_true_2 by done.
    match goal with |- context [invoke ?c ?k ?s1] =>
      destruct (invoke_pending c k s1) as (Hp & Hw & Hans);
      destruct (invoke_same_page c k s1) as (Hst & Hbuf & Hal & Hdata & _);
      set (s' := invoke c k s1) in * end.
    fields. split; [split|].
    + eapply tracked_by_perm; [symmetry; apply Hp|].
      eapply (tracked_by_advance s0); [exact Ht0|done|done|by eexists|done..].
    + by apply Hans.
    + rewrite <- Hw0. unfold work. rewrite Hst, Hal.
      pose proof (page_work_insert (questionStates s0) (allQuestions s0) (cq (cont m)) solving
                    (tr_nodup _ _ Ht0) Hall) as Hpw.
      rewrite Hs in Hpw. cbn [owed] in Hpw. unfold gate_work, in_flight in *. fields. lia.
  - unfold processQuestion_after_solve. rewrite Hv, Hd. cbn zeta. fields.
    rewrite bool_decide_eq_true_2 by done.
    match goal with |- context [fillBuffer ?s1] =>
      destruct (fillBuffer_tracked s1) as [Ht' Hw']; [|split; [done|]] end.
    + split; [|done]. eapply (tracked_by_finish s0); [exact Ht0|done..].
    + etrans; [apply Nat.add_le_mono_r, Hw'|]. rewrite <- Hw0. unfold work. fields.
      pose proof (page_work_insert (questionStates s0) (allQuestions s0) (cq (cont m)) solved
                    (tr_nodup _ _ Ht0) Hall) as Hpw.
      rewrite Hs in Hpw. cbn [owed] in Hpw. unfold gate_work, in_flight in *. fields. lia.
Qed.

Lemma timer_fired_tracked i wake s :
  paced s → tracked s → loops s !! i = Some (AwaitTimer wake) →
  tracked (timer_fired i s) ∧ (work (timer_fired i s) + 1 ≤ work s)%nat.
Proof.
  intros [Hloop _] [Ht Ha] Hi. unfold one_loop in Hloop.
  destruct (loops s) as [|[wake0|e0] [|]] eqn:Hloops; try done;
    [|by destruct i as [|[|]]].
  destruct i; [|done]. destruct Hloop as (_ & Hq & _).
  destruct (timer_fired_same_page 0 s) as (Hst & Hbuf & Hall & Hdata & _).
  unfold timer_fired in *.
  destruct (suspend_at_pending s (Gate.processAPIQueue_shift s) (AwaitTimer wake0))
    as (Hp & Hw & Hm); [apply processAPIQueue_shift_round|done|].
  assert (in_flight s = []) as Hfl by (unfold in_flight; by rewrite Hloops).
  rewrite Hfl in Hp, Hw. cbn [fmap list_fmap length] in Hp, Hw. rewrite app_nil_r in Hp.
  assert (length (carried (Gate.processAPIQueue_shift s)) = 1%nat) as Hcar.
  { unfold carried, Gate.processAPIQueue_shift. by destruct (apiCallQueue s). }
  split; [split|].
  - eapply tracked_by_perm; [symmetry; apply Hp|]. by apply (tracked_by_ext s).
  - unfold answered. by rewrite Hm.
  - unfold work. rewrite Hst, Hall. lia.
Qed.

Lemma call_settled_tracked i e r s :
  paced s → tracked s → loops s !! i = Some (AwaitCall e) →
  tracked (call_settled i e r s) ∧ (work (call_settled i e r s) + 1 ≤ work s)%nat.
Proof.
  intros [Hloop _] [Ht Ha] Hi. unfold one_loop in Hloop.
  destruct (loops s) as [|[wake0|e0] [|]] eqn:Hloops; try done;
    [by destruct i as [|[|]]|].
  destruct i; [|done]. cbn in Hi. simplify_eq.
  destruct (call_settled_same_page 0 e r s) as (Hst & Hbuf & Hall & Hdata & _).
  unfold call_settled in *.
  set (s1 := settle _ _ _) in *.
  destruct (suspend_at_pending s1 (Gate.processAPIQueue_while s1) (AwaitCall e))
    as (Hp & Hw & Hm); [apply processAPIQueue_while_round|done|].
  assert (in_flight s1 = [e]) as Hfl1.
  { unfold in_flight. subst s1. unfold settle. fields. by rewrite Hloops. }
  assert (in_flight s = [e]) as Hfl by (unfold in_flight; by rewrite Hloops).
  assert (pending s1 ≡ₚ pending s ++ [waiter e]) as Hp1.
  { unfold pending. rewrite Hfl1, Hfl. subst s1. unfold settle. fields.
    rewrite fmap_app. cbn. solve_Permutation. }
  assert (gate_work s1 = gate_work s) as Hw1.
  { unfold gate_work. rewrite Hfl1, Hfl. done. }
  rewrite Hfl1, Hp1 in Hp. cbn [fmap list_fmap] in Hp. apply Permutation_app_inv_r in Hp.
  rewrite Hfl1, Hw1 in Hw. cbn [length] in Hw.
  split; [split|].
  - eapply tracked_by_perm; [symmetry; apply Hp|]. by apply (tracked_by_ext s).
  - unfold answered. rewrite Hm. subst s1. unfold settle. fields.
    apply Forall_app. split; [done|]. apply Forall_singleton. by eexists.
  - unfold work. rewrite Hst, Hall. lia.
Qed.

Lemma tracked_ext s s' :
  questionStates s' = questionStates s → processingBuffer s' = processingBuffer s →
  allQuestions s' = allQuestions s → questionData s' = questionData s →
  microtasks s' = microtasks s → apiCallQueue s' = apiCallQueue s → loops s' = loops s →
  tracked s → tracked s'.
Proof.
  intros Hst Hbuf Hall Hdata Hm Hq Hl [Ht Ha]. split.
  - assert (pending s' = pending s) as -> by (unfold pending, in_flight; by rewrite Hm, Hq, Hl).
    by apply (tracked_by_ext s).
  - unfold answered. by rewrite Hm.
Qed.

Lemma step_live s ev s' :
  ev ≠ EvResetClick → live s → step s ev = Some s' → live s'.
Proof.
  intros Hev [Hc Hp Ht] Hstep.
  split; [by eapply step_consistent|by eapply step_paced|]. by_event Hstep.
  - by apply (tracked_ext s).
  - by apply resume_tracked.
  - by eapply timer_fired_tracked.
  - by eapply call_settled_tracked.
  - done.
  - by apply (tracked_ext s).
Qed.


(** ** The page left to itself *)

Lemma uniqueQuestions_spec images :
  NoDup (uniqueQuestions images) ∧
  ∀ q, q ∈ uniqueQuestions images ↔ ∃ img, img ∈ images ∧ questionLabel img = q.
Proof.
  unfold uniqueQuestions.
  assert (∀ imgs keys, NoDup keys →
    let keys' := foldl (λ keys img, if bool_decide (questionLabel img ∈ keys) then keys
                                    else keys ++ [questionLabel img]) keys imgs in
    NoDup keys' ∧ ∀ q, q ∈ keys' ↔ q ∈ keys ∨ ∃ img, img ∈ imgs ∧ questionLabel img = q) as H.
  { induction imgs as [|img imgs IH]; intros keys Hnodup; cbn [foldl].
    { split; [done|]. intros q. split; [by left|]. intros [?|(img & Hin & _)]; [done|].
      by apply elem_of_nil in Hin. }
    case_bool_decide as Hin.
    - destruct (IH keys Hnodup) as [Hn Hq]. split; [done|]. intros q. rewrite Hq.
      split.
      + intros [?|(img' & Hin' & Hl)]; [by left|]. right. exists img'. split; [by right|done].
      + intros [?|(img' & [-> |Hin']%elem_of_cons & Hl)]; [by left|left; by subst|].
        right. by exists img'.
    - destruct (IH (keys ++ [questionLabel img])) as [Hn Hq].
      { apply NoDup_app. split; [done|]. split; [|apply NoDup_singleton].
        intros x Hx ->%list_elem_of_singleton. done. }
      split; [done|]. intros q. rewrite Hq, elem_of_app, list_elem_of_singleton. split.
      + intros [[?| ->]|(img' & Hin' & Hl)]; [by left| |].
        * right. exists img. split; [by left|done].
        * right. exists img'. split; [by right|done].
      + intros [?|(img' & [-> |Hin']%elem_of_cons & Hl)]; [left; by left|left; by right|].
        right. by exists img'. }
  destruct (H images [] (NoDup_nil_2)) as [Hn Hq]. split; [done|].
  intros q. rewrite Hq. split; [|by right]. intros [Hin|?]; [by apply elem_of_nil in Hin|done].
Qed.

Lemma blank_tracked key images now : tracked (blank key images now).
Proof.
  split; [split|]; fields; try done.
  - apply NoDup_nil_2.
  - intros q Hq. by apply elem_of_nil in Hq.
  - intros q. rewrite lookup_empty. by intros [?|?].
  - apply NoDup_nil_2.
  - unfold answered. done.
Qed.

Lemma load_tracked key images now : tracked (load key images now).
Proof.
  unfold load, renderQuestionButtons. fields.
  destruct images as [|img images]; [apply blank_tracked|].
  unfold initializeProcessing. apply fillBuffer_tracked. fields.
  split; [split|]; fields; try done.
  - apply uniqueQuestions_spec.
  - intros q Hq. rewrite foldl_unsolved_lookup. by rewrite bool_decide_eq_true_2.
  - intros q. rewrite foldl_unsolved_lookup, lookup_empty. case_bool_decide; by intros [?|?].
  - apply NoDup_nil_2.
  - unfold answered. done.
Qed.

Lemma load_live key images now : live (load key images now).
Proof. split; [apply load_consistent|apply load_paced|apply load_tracked]. Qed.





(** ** The client *)

Lemma append_assoc (a b c : string) : (a +:+ b) +:+ c = a +:+ b +:+ c.
Proof.
  induction a as [|ch a IH]; [done|].
  change (String ch ((a +:+ b) +:+ c) = String ch (a +:+ b +:+ c)). by rewrite IH.
Qed.




(** The pieces of [extract] and [solve] the event loop runs are the
    two functions cut at their [await]. *)
Lemma extract_cut key images q call :
  Client.extract key images q call =
  Ret (match Client.extract_start key images q with
       | Client.SettledNow text => text
       | Client.Suspended req => Client.extract_finish q (call req)
       end).
Proof.
  unfold Client.extract, Client.extract_try, Client.extract_start, Client.extract_finish.
  destruct (Client.extract_request key images q) as [req|]; [|done]. by destruct (call req).
Qed.

Lemma solve_cut key q extractedText call :
  Client.solve key q extractedText call =
  Ret (match Client.solve_start key q extractedText with
       | Client.SettledNow text => text
       | Client.Suspended req => Client.solve_finish q extractedText (call req)
       end).
Proof.
  unfold Client.solve, Client.solve_try, Client.solve_start, Client.solve_finish.
  destruct (Client.solve_request key extractedText) as [req|]; [|done]. by destruct (call req).
Qed.

(** ** Pressing the reset button *)

Lemma resetButton_onclick_refills s :
  ∃ emptied, resetButton_onclick s = fillBuffer emptied ∧ processingBuffer emptied = ∅.
Proof. eexists. split; reflexivity. Qed.

(** C1.  A question taken out of the buffer while its task waits
    for extraction must not be solved by that task.  [processQuestion]
    only tests whether the question is in the buffer when the task
    resumes, and the reset handler, having emptied the buffer, fills
    it again before it returns.  One question, the button pressed
    while the first extraction call is out: at the click task 0
    waits for the extraction of "1"; once the old call and the solve
    call of task 0 have come back, task 0 is about to resume from
    [solve] while task 1, started by the click, still waits for its
    extraction; resuming task 0 stores its solution as [solvedText]
    and sets the state of "1" to [solved]. *)
Theorem stale_task_solves_reentered_question :
  let before := after [EvClock 1000500] one_question in
  let s := after reset_during_extraction one_question in
  let s' := after (reset_during_extraction ++ [EvMicrotask]) one_question in
  run one_question [EvClock 1000500] = Some before ∧
  elements (processingBuffer before) = ["1"] ∧
  waiter <$> in_flight before = [{| taskId := 0; cq := "1"; stage := AwaitExtract |}] ∧
  (∃ emptied, resetButton_onclick before = fillBuffer emptied ∧
              processingBuffer emptied = ∅) ∧
  run one_question reset_during_extraction = Some s ∧
  microtasks s = [{| cont := {| taskId := 0; cq := "1";
                                stage := AwaitSolve "old extraction" |};
                     value := Ret "old solution" |}] ∧
  waiter <$> in_flight s = [{| taskId := 1; cq := "1"; stage := AwaitExtract |}] ∧
  questionStates s !! "1" = Some solving ∧
  (questionData s !! "1" ≫= solvedText) = None ∧
  step s EvMicrotask = Some s' ∧
  questionStates s' !! "1" = Some solved ∧
  (questionData s' !! "1" ≫= solvedText) = Some "old solution".
Proof.
  cbn zeta. repeat apply conj; try apply resetButton_onclick_refills; vm_compute; reflexivity.
Qed.

(** C9.  One drain loop at a time is what [isProcessingQueue]
    is for, but the reset handler clears the flag while a loop is
    suspended.  One question, the button pressed while the first
    call is out: before the click one activation of
    [processAPIQueue] is suspended; after it there are two, each
    with a call out at the service. *)
Theorem reset_starts_second_drain_loop :
  let before := after [EvClock 1000500] one_question in
  let s := after [EvClock 1000500; EvResetClick] one_question in
  run one_question [EvClock 1000500] = Some before ∧
  length (loops before) = 1%nat ∧
  step before EvResetClick = Some s ∧
  length (loops s) = 2%nat ∧
  callId <$> in_flight s = [0%nat; 1%nat].
Proof. cbn zeta. repeat apply conj; vm_compute; reflexivity. Qed.

Lemma second_start_too_close :
  ¬ rate_floor [Dispatched 2 1000900; Submitted 2; Submitted 1;
                Completed 0 1000800; Dispatched 0 1000000; Submitted 0].
Proof.
  intros Hfloor.
  destruct (Hfloor [] 2%nat 1000900
              [Submitted 2; Submitted 1; Completed 0 1000800] 0%nat 1000000 [Submitted 0])
    as (tc & Hin & Htc); [done| |].
  - intros c t Hin. decompose_list_elem_of; done.
  - decompose_list_elem_of; simplify_eq. unfold RATE_LIMIT_DELAY in Htc. lia.
Qed.

(** C3 as stated fails.  One question; its extraction call comes
    back 800 ms after the page loaded and the reset button is
    pressed 100 ms later: the handler sets [lastAPICallTime] to 0 and
    the next call (2) is started at once, 100 ms after call 0 came
    back. *)
Lemma rate_floor_broken_by_reset :
  let s := after reset_after_completion one_question in
  run one_question reset_after_completion = Some s ∧
  gateLog s = [Dispatched 2 1000900; Submitted 2; Submitted 1;
               Completed 0 1000800; Dispatched 0 1000000; Submitted 0] ∧
  ¬ rate_floor (gateLog s).
Proof.
  intros s.
  assert (gateLog s
          = [Dispatched 2 1000900; Submitted 2; Submitted 1;
             Completed 0 1000800; Dispatched 0 1000000; Submitted 0]) as Hlog.
  { vm_compute; reflexivity. }
  split; [vm_compute; reflexivity|]. split; [exact Hlog|].
  rewrite Hlog. apply second_start_too_close.
Qed.

(** ** The registry *)





Lemma load_allQuestions key images now :
  allQuestions (load key images now) = uniqueQuestions images.
Proof.
  unfold load, renderQuestionButtons. fields. destruct images; [done|].
  unfold initializeProcessing. by rewrite fillBuffer_allQuestions.
Qed.





(** ** Counting question numbers *)

Lemma append_cons c (a b : string) : String c a +:+ b = String c (a +:+ b).
Proof. done. Qed.

Lemma append_nil_l (a : string) : "" +:+ a = a.
Proof. done. Qed.

Lemma append_nil_r (a : string) : a +:+ "" = a.
Proof. induction a as [|c a IH]; [done|]. by rewrite append_cons, IH. Qed.

Lemma slice_last_spec c rest :
  String c rest = (slice_last c rest).1 +:+ String (slice_last c rest).2 "".
Proof.
  revert c. induction rest as [|c' rest IH]; intros c; [done|].
  cbn [slice_last]. specialize (IH c'). destruct (slice_last c' rest) as [p l].
  cbn [fst snd] in *. by rewrite append_cons, <-IH.
Qed.

Lemma slice_last_snoc prefix l :
  match prefix +:+ String l "" with
  | "" => False
  | String c rest => slice_last c rest = (prefix, l)
  end.
Proof.
  induction prefix as [|c p IH]; [done|].
  rewrite append_cons. destruct (p +:+ String l "") as [|c' rest] eqn:E; [done|].
  cbn [slice_last]. by rewrite IH.
Qed.

Lemma last_char_snoc prefix l : last_char (prefix +:+ String l "") = Some l.
Proof.
  unfold last_char. pose proof (slice_last_snoc prefix l) as H.
  destruct (prefix +:+ String l ""); [done|]. by rewrite H.
Qed.

Lemma last_char_app a b : b ≠ "" → last_char (a +:+ b) = last_char b.
Proof.
  intros Hb. destruct b as [|c rest]; [done|].
  rewrite (slice_last_spec c rest).
  destruct (slice_last c rest) as [p l]. cbn [fst snd].
  rewrite last_char_snoc, <-append_assoc. apply last_char_snoc.
Qed.

Lemma all_digits_app a b : all_digits (a +:+ b) = all_digits a && all_digits b.
Proof.
  induction a as [|c a IH]; [done|].
  rewrite append_cons. cbn [all_digits]. rewrite IH. by rewrite andb_assoc.
Qed.

Lemma last_char_cons c rest : rest ≠ "" → last_char (String c rest) = last_char rest.
Proof. intros H. change (String c rest) with (String c "" +:+ rest). by apply last_char_app. Qed.

Lemma all_digits_ends text : text ≠ "" → all_digits text = true → ends_in isDigit text = true.
Proof.
  induction text as [|c rest IH]; [done|]. intros _.
  cbn [all_digits]. intros [Hc Hrest]%andb_true_iff.
  destruct rest as [|c' rest'].
  - unfold ends_in. by cbn.
  - unfold ends_in in *. rewrite last_char_cons by done. by apply IH.
Qed.

Lemma match_trailing_digits_none text :
  ends_in isDigit text = false → match_trailing_digits text = None.
Proof.
  induction text as [|c rest IH]; [done|]. intros Hend.
  cbn [match_trailing_digits].
  destruct (isDigit c && all_digits rest) eqn:Hd.
  { rewrite all_digits_ends in Hend; [done|done|]. done. }
  destruct rest as [|c' rest']; [done|].
  rewrite IH; [done|]. unfold ends_in in *. by rewrite last_char_cons in Hend.
Qed.

Lemma match_trailing_digits_some before digits :
  ends_in isDigit before = false → digits ≠ "" → all_digits digits = true →
  match_trailing_digits (before +:+ digits) = Some (before, digits).
Proof.
  intros Hend Hne Hd. induction before as [|c rest IH].
  - rewrite append_nil_l. destruct digits as [|c r]; [done|].
    cbn [match_trailing_digits]. cbn [all_digits] in Hd. by rewrite Hd.
  - rewrite append_cons. cbn [match_trailing_digits].
    destruct (isDigit c && all_digits (rest +:+ digits)) eqn:Hall.
    { apply andb_true_iff in Hall as [Hc Hall].
      rewrite all_digits_app in Hall. apply andb_true_iff in Hall as [Hall _].
      rewrite (all_digits_ends (String c rest)) in Hend; [done|done|].
      cbn [all_digits]. by rewrite Hc, Hall. }
    rewrite IH; [done|].
    destruct rest as [|c' rest']; [done|].
    unfold ends_in in *. by rewrite last_char_cons in Hend.
Qed.

Lemma pretty_N_char_digit (d : N) :
  (d < 10)%N →
  isDigit (pretty_N_char d) = true ∧
  N.of_nat (Ascii.nat_of_ascii (pretty_N_char d) - 48) = d.
Proof.
  intros Hd.
  assert (d = 0 ∨ d = 1 ∨ d = 2 ∨ d = 3 ∨ d = 4 ∨ d = 5 ∨ d = 6 ∨ d = 7 ∨ d = 8 ∨ d = 9)%N
    as Hcases by lia.
  destruct Hcases as [->|[->|[->|[->|[->|[->|[->|[->|[->| ->]]]]]]]]]; done.
Qed.

(** Printing a number and reading it back. *)
Lemma pretty_N_go_read x : ∀ text,
  all_digits text = true →
  all_digits (pretty_N_go x text) = true ∧
  ∃ k, ∀ value, parseInt_from value (pretty_N_go x text)
                = parseInt_from (value * 10 ^ k + x)%N text.
Proof.
  induction (N.lt_wf_0 x) as [x _ IH]. intros text Htext.
  destruct (decide (x = 0)%N) as [->|Hx].
  { rewrite pretty_N_go_0. split; [done|]. exists 0%N. intros value. f_equal. lia. }
  rewrite pretty_N_go_step by lia.
  assert (x `mod` 10 < 10)%N as Hmod by (apply N.mod_lt; lia).
  destruct (pretty_N_char_digit _ Hmod) as [Hdigit Hvalue].
  destruct (IH (x `div` 10)%N) with (text := String (pretty_N_char (x `mod` 10)) text)
    as [Hall [k Hk]].
  { apply N.div_lt; lia. }
  { cbn [all_digits]. by rewrite Htext, Hdigit. }
  split; [done|]. exists (k + 1)%N. intros value. rewrite Hk.
  cbn [parseInt_from]. f_equal. rewrite Hvalue.
  rewrite N.pow_add_r. pose proof (N.div_mod x 10). lia.
Qed.

Lemma pretty_all_digits (n : N) : all_digits (pretty n) = true.
Proof.
  unfold pretty, pretty_N. case_decide as Hn; [done|]. by apply pretty_N_go_read.
Qed.

Lemma parseInt_pretty (n : N) : parseInt (pretty n) = n.
Proof.
  unfold pretty, pretty_N, parseInt. case_decide as Hn; [by subst|].
  destruct (pretty_N_go_read n "") as [_ [k Hk]]; [done|].
  rewrite Hk. cbn [parseInt_from]. lia.
Qed.

Lemma pretty_nonempty (n : N) : pretty n ≠ "".
Proof.
  intros Hempty. unfold pretty, pretty_N in Hempty. case_decide as Hn; [done|].
  destruct (pretty_N_go_read n "") as [_ [k Hk]]; [done|].
  specialize (Hk 0%N). rewrite Hempty in Hk. cbn [parseInt_from] in Hk. lia.
Qed.


Lemma counted_S n q : counted (S n) q = counted n q ≫= Capture.incrementQuestionNumber.
Proof. done. Qed.

Lemma counted_1 q : counted 1 q = Capture.incrementQuestionNumber q.
Proof. done. Qed.

Lemma bind_Some_l {A B} (f : A → option B) x : Some x ≫= f = f x.
Proof. done. Qed.

Lemma bind_None_l {A B} (f : A → option B) : None ≫= f = None.
Proof. done. Qed.

Lemma not_letter_of_digit c : isDigit c = true → isLetter c = false.
Proof.
  unfold isDigit, isLetter. cbn zeta. generalize (Ascii.nat_of_ascii c). intros code.
  rewrite andb_true_iff, orb_false_iff, !andb_false_iff, !Nat.leb_le, !Nat.leb_gt. lia.
Qed.

Lemma increment_trailing before digits :
  ends_in isDigit before = false → digits ≠ "" → all_digits digits = true →
  Capture.incrementQuestionNumber (before +:+ digits)
  = if (parseInt digits <=? MAX_SAFE_INTEGER)%N
    then Some (before +:+ pretty (parseInt digits + 1)%N) else None.
Proof.
  intros Hend Hne Hall.
  pose proof (all_digits_ends _ Hne Hall) as Hlast.
  unfold ends_in in Hlast. rewrite <-(last_char_app before) in Hlast by done.
  pose proof (match_trailing_digits_some _ _ Hend Hne Hall) as Hmatch.
  unfold Capture.incrementQuestionNumber.
  destruct (before +:+ digits) as [|c rest] eqn:Htext.
  { destruct before, digits; done. }
  unfold last_char in Hlast.
  destruct (slice_last c rest) as [prefix lastChar]. cbn [snd] in Hlast.
  rewrite (not_letter_of_digit _ Hlast). by rewrite Hmatch.
Qed.

Lemma increment_plain q :
  ends_in isLetter q = false → ends_in isDigit q = false →
  Capture.incrementQuestionNumber q = Some (q +:+ "1").
Proof.
  intros Hletter Hdigit. unfold Capture.incrementQuestionNumber.
  destruct q as [|c rest]; [done|].
  unfold ends_in, last_char in Hletter.
  destruct (slice_last c rest) as [prefix lastChar]. cbn [snd] in Hletter.
  rewrite Hletter. by rewrite match_trailing_digits_none.
Qed.

(** The numbers that follow [before +:+ digits]. *)
Lemma counted_trailing before digits n :
  ends_in isLetter (before +:+ digits) = false →
  ends_in isDigit before = false → all_digits digits = true →
  (1 ≤ n)%nat →
  counted n (before +:+ digits)
  = if (parseInt digits + N.of_nat n <=? MAX_SAFE_INTEGER + 1)%N
    then Some (before +:+ pretty (parseInt digits + N.of_nat n)%N) else None.
Proof.
  intros Hletter Hend Hall Hn.
  assert (∀ v, v ≠ 0%N →
    Capture.incrementQuestionNumber (before +:+ pretty v)
    = if (v <=? MAX_SAFE_INTEGER)%N then Some (before +:+ pretty (v + 1)%N) else None)
    as Hnext.
  { intros v _. rewrite increment_trailing;
      [by rewrite parseInt_pretty|done|apply pretty_nonempty|apply pretty_all_digits]. }
  assert (counted 1 (before +:+ digits)
          = if (parseInt digits + 1 <=? MAX_SAFE_INTEGER + 1)%N
            then Some (before +:+ pretty (parseInt digits + 1)%N) else None) as Hone.
  { rewrite counted_1.
    destruct (decide (digits = "")) as [->|Hne].
    - rewrite append_nil_r in *. by rewrite increment_plain.
    - rewrite increment_trailing by done.
      destruct (N.leb_spec (parseInt digits) MAX_SAFE_INTEGER),
               (N.leb_spec (parseInt digits + 1) (MAX_SAFE_INTEGER + 1)); done || lia. }
  induction n as [|n IH]; [lia|].
  destruct (decide (n = 0)%nat) as [->|Hpos]; [done|].
  rewrite counted_S, IH by lia.
  replace (parseInt digits + N.of_nat (S n))%N with (parseInt digits + N.of_nat n + 1)%N by lia.
  destruct (N.leb_spec (parseInt digits + N.of_nat n) (MAX_SAFE_INTEGER + 1)).
  - rewrite bind_Some_l, Hnext by lia.
    destruct (N.leb_spec (parseInt digits + N.of_nat n) MAX_SAFE_INTEGER),
             (N.leb_spec (parseInt digits + N.of_nat n + 1) (MAX_SAFE_INTEGER + 1)); done || lia.
  - rewrite bind_None_l.
    destruct (N.leb_spec (parseInt digits + N.of_nat n + 1) (MAX_SAFE_INTEGER + 1)); done || lia.
Qed.

(** Every text is something that does not end in a digit, followed by
    digits. *)
Lemma trailing_digits_split text :
  ∃ before digits, text = before +:+ digits ∧
                   ends_in isDigit before = false ∧ all_digits digits = true.
Proof.
  induction text as [|c rest (before & digits & -> & Hend & Hall)].
  { by exists "", "". }
  destruct before as [|c' before'].
  - destruct (isDigit c) eqn:Hc.
    + exists "", (String c digits). cbn [all_digits]. by rewrite Hc, Hall.
    + exists (String c ""), digits. repeat split; [|done].
      unfold ends_in. by cbn.
  - exists (String c (String c' before')), digits. repeat split; [|done].
    unfold ends_in in *. by rewrite last_char_cons.
Qed.

(** X1.  A question number that ends in digits is counted up on its
    trailing number: the [n]-th number after it in single image mode
    is what stands before the digits, followed by that number plus
    [n] in decimal.  Leading zeros are lost (Q007 is followed by Q8),
    and a number that ends in 9 grows by a digit.  This holds while
    the number stays within what a [Number] holds exactly. *)
Theorem numbering_counts_up before digits n :
  ends_in isDigit before = false → digits ≠ "" → all_digits digits = true →
  (1 ≤ n)%nat → (parseInt digits + N.of_nat n ≤ MAX_SAFE_INTEGER + 1)%N →
  counted n (before +:+ digits) = Some (before +:+ pretty (parseInt digits + N.of_nat n)%N).
Proof.
  intros Hend Hne Hall Hn Hmax. rewrite counted_trailing; [|..|done]; [|..|done]; [|..|done].
  - by rewrite (proj2 (N.leb_le _ _) Hmax).
  - pose proof (all_digits_ends _ Hne Hall) as Hlast.
    unfold ends_in in *. rewrite last_char_app by done.
    destruct (last_char digits); [|done]. by apply not_letter_of_digit.
Qed.

Lemma numbering_counts_up_witness :
  ends_in isDigit "Q" = false ∧ "007" ≠ "" ∧ all_digits "007" = true ∧ (1 ≤ 3)%nat ∧
  (parseInt "007" + N.of_nat 3 ≤ MAX_SAFE_INTEGER + 1)%N ∧
  counted 1 "Q007" = Some "Q8" ∧
  counted 3 ("Q" +:+ "007") = Some ("Q" +:+ pretty (parseInt "007" + N.of_nat 3)%N).
Proof.
  split; [reflexivity|]. split; [discriminate|]. split; [reflexivity|]. split; [lia|].
  split; [vm_compute; discriminate|]. split; [vm_compute; reflexivity|].
  apply (numbering_counts_up "Q" "007" 3);
    [reflexivity|discriminate|reflexivity|lia|vm_compute; discriminate].
Defined.

(** X2.  A question number that ends neither in a letter nor in a
    digit, the empty one included, gets 1 appended and is counted up
    from there: the [n]-th number after [q] is [q] followed by [n].
    In single image mode an empty number field therefore gives the
    numbers "", 1, 2, ... *)
Theorem numbering_starts_at_one q n :
  ends_in isLetter q = false → ends_in isDigit q = false →
  (1 ≤ n)%nat → (N.of_nat n ≤ MAX_SAFE_INTEGER + 1)%N →
  counted n q = Some (q +:+ pretty (N.of_nat n)).
Proof.
  intros Hletter Hdigit Hn Hmax.
  pose proof (counted_trailing q "" n) as H. rewrite append_nil_r in H.
  rewrite H by done. change (parseInt "") with 0%N. rewrite N.add_0_l.
  by rewrite (proj2 (N.leb_le _ _) Hmax).
Qed.

Lemma numbering_starts_at_one_witness :
  ends_in isLetter "" = false ∧ ends_in isDigit "" = false ∧ (1 ≤ 2)%nat ∧
  (N.of_nat 2 ≤ MAX_SAFE_INTEGER + 1)%N ∧
  counted 2 "" = Some ("" +:+ pretty (N.of_nat 2)).
Proof.
  split; [reflexivity|]. split; [reflexivity|]. split; [lia|].
  split; [vm_compute; discriminate|].
  apply (numbering_starts_at_one "" 2); [reflexivity|reflexivity|lia|vm_compute; discriminate].
Defined.

Lemma counted_apart q i j a b :
  ends_in isLetter q = false → (i < j)%nat →
  counted i q = Some a → counted j q = Some b → a ≠ b.
Proof.
  intros Hletter Hij Ha Hb.
  destruct (trailing_digits_split q) as (before & digits & -> & Hend & Hall).
  rewrite counted_trailing in Hb by (done || lia).
  destruct (_ <=? _)%N; [|done]. injection Hb as <-.
  destruct (decide (i = 0)%nat) as [->|Hi].
  - injection Ha as <-. intros Heq%(inj _).
    pose proof (parseInt_pretty (parseInt digits + N.of_nat j)) as Hread.
    rewrite <-Heq in Hread. lia.
  - rewrite counted_trailing in Ha by (done || lia).
    destruct (_ <=? _)%N; [|done]. injection Ha as <-.
    intros Heq%(inj _)%(inj _). lia.
Qed.

(** What stands before the last letter takes no part. *)
Lemma increment_letter prefix c :
  isLetter c = true →
  Capture.incrementQuestionNumber (prefix +:+ String c "")
  = (λ text, prefix +:+ text) <$> Capture.incrementQuestionNumber (String c "").
Proof.
  intros Hc. unfold Capture.incrementQuestionNumber at 1.
  pose proof (slice_last_snoc prefix c) as Hlast.
  destruct (prefix +:+ String c "") as [|c0 rest]; [done|].
  rewrite Hlast, Hc. unfold Capture.incrementQuestionNumber. cbn [slice_last]. rewrite Hc.
  by repeat case_match.
Qed.

Lemma letter_next c :
  isLetter c = true →
  ∃ c', Capture.incrementQuestionNumber (String c "") = Some (String c' "") ∧ isLetter c' = true.
Proof.
  destruct c as [[] [] [] [] [] [] [] []]; intros Hc; try discriminate Hc;
    (eexists; split; vm_compute; reflexivity).
Qed.

Lemma counted_letter prefix n : ∀ c,
  isLetter c = true →
  ∃ c', isLetter c' = true ∧ counted n (String c "") = Some (String c' "") ∧
        counted n (prefix +:+ String c "") = Some (prefix +:+ String c' "").
Proof.
  induction n as [|n IH]; intros c Hc; [by exists c|].
  destruct (IH c Hc) as (c1 & Hc1 & Hone & Hall).
  destruct (letter_next c1 Hc1) as (c2 & Hnext & Hc2).
  exists c2. rewrite !counted_S, Hone, Hall, !bind_Some_l, increment_letter, Hnext by done.
  done.
Qed.

Lemma letter_period c :
  isLetter c = true →
  counted 26 (String c "") = Some (String c "") ∧
  forallb (λ n, negb (bool_decide (counted n (String c "") = Some (String c ""))))
          (seq 1 25) = true.
Proof.
  destruct c as [[] [] [] [] [] [] [] []]; intros Hc; try discriminate Hc;
    (split; vm_compute; reflexivity).
Qed.

(** X3.  A question number that ends in a letter is counted on that
    letter alone: what stands before it never changes, Z is followed
    by A and z by a without a carry, and so the number comes back
    after 26 steps and not before. *)
Theorem letters_wrap_without_carry prefix c :
  isLetter c = true →
  counted 26 (prefix +:+ String c "") = Some (prefix +:+ String c "") ∧
  (∀ n, (0 < n < 26)%nat → counted n (prefix +:+ String c "") ≠ Some (prefix +:+ String c "")) ∧
  (∀ n, ∃ c', isLetter c' = true ∧
              counted n (prefix +:+ String c "") = Some (prefix +:+ String c' "")).
Proof.
  intros Hc. destruct (letter_period c Hc) as [Hback Hearlier].
  split; [|split].
  - destruct (counted_letter prefix 26 c Hc) as (c' & _ & Hone & ->).
    rewrite Hback in Hone. by injection Hone as <-.
  - intros n Hn. destruct (counted_letter prefix n c Hc) as (c' & _ & Hone & ->).
    intros [= Heq%(inj _)]. injection Heq as ->.
    rewrite forallb_forall in Hearlier.
    specialize (Hearlier n). rewrite bool_decide_eq_true_2 in Hearlier by done.
    discriminate Hearlier. apply in_seq. lia.
  - intros n. destruct (counted_letter prefix n c Hc) as (c' & ? & _ & ?). by exists c'.
Qed.

Lemma letters_wrap_without_carry_witness :
  isLetter "Z" = true ∧
  counted 1 "1Z" = Some "1A" ∧
  counted 26 ("1" +:+ String "Z" "") = Some ("1" +:+ String "Z" "") ∧
  (∀ n, (0 < n < 26)%nat → counted n ("1" +:+ String "Z" "") ≠ Some ("1" +:+ String "Z" "")) ∧
  (∀ n, ∃ c', isLetter c' = true ∧
              counted n ("1" +:+ String "Z" "") = Some ("1" +:+ String c' "")).
Proof.
  split; [reflexivity|]. split; [vm_compute; reflexivity|].
  apply (letters_wrap_without_carry "1" "Z"). reflexivity.
Defined.

(** X4.  Unless the first number ends in a letter, no two images
    of one selection in single image mode get the same number: the
    numbers counted from [q] are pairwise different, as long as they
    are within what a [Number] holds exactly. *)
Theorem numbers_never_repeat q i j a b :
  ends_in isLetter q = false → (i < j)%nat →
  counted i q = Some a → counted j q = Some b → a ≠ b.
Proof. apply counted_apart. Qed.

Lemma numbers_never_repeat_witness :
  ends_in isLetter "Q9" = false ∧ (0 < 1)%nat ∧
  counted 0 "Q9" = Some "Q9" ∧ counted 1 "Q9" = Some "Q10" ∧ "Q9" ≠ "Q10".
Proof.
  split; [reflexivity|]. split; [lia|]. split; [reflexivity|].
  split; [vm_compute; reflexivity|].
  apply (numbers_never_repeat "Q9" 0 1 "Q9" "Q10");
    [reflexivity|lia|reflexivity|vm_compute; reflexivity].
Defined.

(** ** The capture page *)

Ltac page_fields :=
  cbn [Capture.savedImages Capture.isSingleImageMode Capture.fileQuestionNumberInput
       Capture.cameraQuestionNumberInput Capture.cameraStream Capture.readers
       Capture.imageGallery Capture.emptyMessage
       Capture.set_savedImages Capture.set_isSingleImageMode
       Capture.set_fileQuestionNumberInput Capture.set_cameraQuestionNumberInput
       Capture.set_cameraStream Capture.set_readers Capture.set_gallery] in *.

Lemma updateGallery_savedImages p :
  Capture.savedImages (Capture.updateGallery p) = Capture.savedImages p.
Proof. unfold Capture.updateGallery. by case_match. Qed.










Lemma addImageToStorage_savedImages dataUrl questionNumber p :
  Capture.savedImages (Capture.addImageToStorage dataUrl questionNumber p)
  = Capture.savedImages p ++ [stored dataUrl questionNumber].
Proof. unfold Capture.addImageToStorage. by rewrite updateGallery_savedImages. Qed.

Lemma addImageToStorage_readers dataUrl questionNumber p :
  Capture.readers (Capture.addImageToStorage dataUrl questionNumber p) = Capture.readers p.
Proof. unfold Capture.addImageToStorage, Capture.updateGallery. by case_match. Qed.

Lemma addImageToStorage_fileNumber dataUrl questionNumber p :
  Capture.fileQuestionNumberInput (Capture.addImageToStorage dataUrl questionNumber p)
  = Capture.fileQuestionNumberInput p.
Proof. unfold Capture.addImageToStorage, Capture.updateGallery. by case_match. Qed.













Lemma delete_app_r {A} (l1 l2 : list A) k :
  delete (length l1 + k)%nat (l1 ++ l2) = l1 ++ delete k l2.
Proof. induction l1 as [|a l1 IH]; [done|]. cbn. f_equal. apply IH. Qed.

Lemma delete_replicate {A} (x : A) m k :
  (k < m)%nat → delete k (replicate m x) = replicate (m - 1) x.
Proof.
  revert k. induction m as [|m IH]; intros k Hk; [lia|].
  destruct k as [|k]; cbn; [by rewrite Nat.sub_0_r|].
  rewrite IH by lia. destruct m; [lia|]. cbn. by rewrite Nat.sub_0_r.
Qed.

Lemma kept_cons i result room evs :
  kept (Capture.EvLoaded i result room :: evs)
  = if room then result :: kept evs else kept evs.
Proof. by destruct room. Qed.

(** The readers of a selection in bulk mode, from place [length old]
    on, are done in any order. *)
Lemma bulk_selection_loads old q evs : ∀ p m p',
  Capture.readers p = old ++ replicate m (Capture.Bulk q) →
  Forall (loads_from (length old)) evs →
  Capture.run p evs = Some p' →
  Capture.savedImages p' = Capture.savedImages p ++ map (λ result, stored result q) (kept evs) ∧
  Capture.fileQuestionNumberInput p' = Capture.fileQuestionNumberInput p ∧
  (length (kept evs) ≤ m)%nat.
Proof.
  induction evs as [|ev evs IH]; intros p m p' Hreaders Hevs Hrun.
  { injection Hrun as <-. cbn. rewrite app_nil_r. split_and!; [done|done|lia]. }
  apply Forall_cons in Hevs as [(i & result & room & -> & Hi) Hevs].
  cbn [Capture.run Capture.step] in Hrun. unfold Capture.reader_onload in Hrun.
  destruct (Capture.readers p !! i) as [reader|] eqn:Hreader; [|done].
  assert (reader = Capture.Bulk q ∧ (i - length old < m)%nat) as [-> Hm].
  { rewrite Hreaders, lookup_app_r in Hreader by done.
    apply lookup_replicate in Hreader as [-> ?]. done. }
  assert (delete i (Capture.readers p) = old ++ replicate (m - 1) (Capture.Bulk q)) as Hdel.
  { rewrite Hreaders. replace i with (length old + (i - length old))%nat at 1 by lia.
    by rewrite delete_app_r, delete_replicate. }
  destruct room; rewrite bind_Some_l in Hrun.
  - apply (IH _ (m - 1)%nat) in Hrun as (Himages & Hinput & Hlen); [| |done].
    + rewrite kept_cons. cbn [map]. cbn [Capture.followed] in *. page_fields.
      rewrite addImageToStorage_savedImages, <-app_assoc in Himages.
      rewrite addImageToStorage_fileNumber in Hinput.
      split_and!; [done|done|]. cbn [length]. lia.
    + cbn [Capture.followed]. page_fields. by rewrite addImageToStorage_readers.
  - apply (IH _ (m - 1)%nat) in Hrun as (Himages & Hinput & Hlen); [| |done].
    + rewrite kept_cons. split_and!; [done|done|lia].
    + done.
Qed.

Lemma fileInput_onchange_bulk files p :
  Capture.isSingleImageMode p = false →
  let p1 := Capture.fileInput_onchange files p in
  Capture.readers p1
  = Capture.readers p ++
    replicate (length files) (Capture.Bulk (trim (Capture.fileQuestionNumberInput p))) ∧
  Capture.savedImages p1 = Capture.savedImages p ∧
  Capture.fileQuestionNumberInput p1 = "".
Proof.
  intros Hmode. unfold Capture.fileInput_onchange. rewrite Hmode. cbn zeta. page_fields.
  split_and!; [|done|done]. f_equal.
  induction files as [|f files IH]; [done|]. cbn. by rewrite IH.
Qed.

(** X8.  In bulk mode all the images of a selection are stored under
    one number, the trimmed content of the number field at the time
    of the selection, in whatever order their readers are done; the
    images that local storage refuses are missing, and the field is
    emptied at once. *)
Theorem bulk_mode_shares_one_number p files evs p' :
  Capture.isSingleImageMode p = false →
  Forall (loads_from (length (Capture.readers p))) evs →
  Capture.run p (Capture.EvFiles files :: evs) = Some p' →
  Capture.savedImages p'
  = Capture.savedImages p ++
    map (λ result, stored result (trim (Capture.fileQuestionNumberInput p))) (kept evs) ∧
  (length (kept evs) ≤ length files)%nat ∧
  Capture.fileQuestionNumberInput p' = "".
Proof.
  intros Hmode Hevs Hrun. cbn [Capture.run Capture.step] in Hrun.
  rewrite bind_Some_l in Hrun.
  destruct (fileInput_onchange_bulk files p Hmode) as (Hreaders & Himages & Hinput).
  destruct (bulk_selection_loads _ _ _ _ _ _ Hreaders Hevs Hrun) as (Hsaved & Hfile & Hlen).
  rewrite Himages in Hsaved. rewrite Hinput in Hfile. done.
Qed.

Lemma bulk_loads_from : Forall (loads_from (length (Capture.readers bulk_page))) bulk_loads.
Proof. repeat constructor; eexists _, _, _; (split; [reflexivity|cbn; lia]). Qed.

Lemma bulk_mode_shares_one_number_witness :
  let p' := default bulk_page
              (Capture.run bulk_page (Capture.EvFiles three_files :: bulk_loads)) in
  Capture.isSingleImageMode bulk_page = false ∧
  Forall (loads_from (length (Capture.readers bulk_page))) bulk_loads ∧
  Capture.run bulk_page (Capture.EvFiles three_files :: bulk_loads) = Some p' ∧
  Capture.savedImages p' = [stored "data:c" "7"; stored "data:a" "7"] ∧
  Capture.savedImages p'
  = Capture.savedImages bulk_page ++
    map (λ result, stored result (trim (Capture.fileQuestionNumberInput bulk_page)))
        (kept bulk_loads) ∧
  (length (kept bulk_loads) ≤ length three_files)%nat ∧
  Capture.fileQuestionNumberInput p' = "".
Proof.
  cbn zeta. split; [reflexivity|]. split; [apply bulk_loads_from|].
  split; [vm_compute; reflexivity|]. split; [vm_compute; reflexivity|].
  apply (bulk_mode_shares_one_number bulk_page three_files bulk_loads).
  - reflexivity.
  - apply bulk_loads_from.
  - vm_compute; reflexivity.
Defined.

(** *** From the capture page to the registry *)

Lemma questionLabel_stored result number : questionLabel (stored result number) = entry_of number.
Proof. unfold questionLabel, entry_of. cbn. by destruct number. Qed.

Lemma uniqueQuestions_known imgs : ∀ keys,
  (∀ img, img ∈ imgs → questionLabel img ∈ keys) →
  foldl (λ keys img, if bool_decide (questionLabel img ∈ keys) then keys
                     else keys ++ [questionLabel img]) keys imgs = keys.
Proof.
  induction imgs as [|img imgs IH]; intros keys Hkeys; [done|].
  cbn [foldl]. rewrite bool_decide_eq_true_2 by (apply Hkeys; by left).
  apply IH. intros img' Hin. apply Hkeys. by right.
Qed.


Lemma uniqueQuestions_one_label imgs label :
  imgs ≠ [] → Forall (λ img, questionLabel img = label) imgs →
  uniqueQuestions imgs = [label].
Proof.
  intros Hne Hall. destruct imgs as [|img imgs]; [done|].
  apply Forall_cons in Hall as [Hlabel Hall].
  unfold uniqueQuestions. cbn [foldl]. rewrite bool_decide_eq_false_2 by apply not_elem_of_nil.
  rewrite Hlabel. apply uniqueQuestions_known.
  intros img' Hin. rewrite Forall_forall in Hall. rewrite (Hall _ Hin). by left.
Qed.


Lemma getQuestionImages_whole imgs label :
  Forall (λ img, questionLabel img = label) imgs → getQuestionImages imgs label = imgs.
Proof.
  intros Hall. unfold getQuestionImages.
  induction Hall as [|img imgs Hlabel Hall IH]; [done|].
  rewrite filter_cons_True by done. by rewrite IH.
Qed.





Lemma map_fmap {A B} (f : A → B) (l : list A) : map f l = f <$> l.
Proof. induction l as [|a l IH]; [done|]. cbn. by rewrite IH. Qed.



(** X9.  What is stored in bulk mode on an empty list makes one
    question on the processing page: the registry holds the one
    entry of the selection's number, No Q# if the field was empty,
    and [getQuestionImages] of it returns every stored image. *)
Theorem bulk_selection_is_one_question p files evs p' key now :
  Capture.savedImages p = [] →
  Capture.isSingleImageMode p = false →
  Forall (loads_from (length (Capture.readers p))) evs →
  Capture.run p (Capture.EvFiles files :: evs) = Some p' →
  kept evs ≠ [] →
  let entry := entry_of (trim (Capture.fileQuestionNumberInput p)) in
  allQuestions (load key (Capture.savedImages p') now) = [entry] ∧
  getQuestionImages (Capture.savedImages p') entry = Capture.savedImages p' ∧
  length (Capture.savedImages p') = length (kept evs).
Proof.
  intros Hfresh Hmode Hevs Hrun Hkept entry. cbn [Capture.run Capture.step] in Hrun.
  rewrite bind_Some_l in Hrun.
  destruct (fileInput_onchange_bulk files p Hmode) as (Hreaders & Himages & Hinput).
  destruct (bulk_selection_loads _ _ _ _ _ _ Hreaders Hevs Hrun) as (Hsaved & _ & _).
  rewrite Himages, Hfresh, app_nil_l in Hsaved. rewrite Hsaved, load_allQuestions.
  assert (Forall (λ img, questionLabel img = entry)
            (map (λ result, stored result (trim (Capture.fileQuestionNumberInput p)))
                 (kept evs))) as Hall.
  { apply Forall_forall. intros img Himg. rewrite map_fmap in Himg.
    apply list_elem_of_fmap in Himg as (result & -> & _). apply questionLabel_stored. }
  split_and!.
  - apply uniqueQuestions_one_label; [|done]. by destruct (kept evs).
  - by apply getQuestionImages_whole.
  - by rewrite length_map.
Qed.

Lemma bulk_selection_is_one_question_witness :
  let p' := default bulk_page
              (Capture.run bulk_page (Capture.EvFiles three_files :: bulk_loads)) in
  Capture.savedImages bulk_page = [] ∧
  Capture.isSingleImageMode bulk_page = false ∧
  Forall (loads_from (length (Capture.readers bulk_page))) bulk_loads ∧
  Capture.run bulk_page (Capture.EvFiles three_files :: bulk_loads) = Some p' ∧
  kept bulk_loads ≠ [] ∧
  let entry := entry_of (trim (Capture.fileQuestionNumberInput bulk_page)) in
  allQuestions (load (Some "key") (Capture.savedImages p') 1000000) = [entry] ∧
  getQuestionImages (Capture.savedImages p') entry = Capture.savedImages p' ∧
  length (Capture.savedImages p') = length (kept bulk_loads).
Proof.
  cbn zeta. split; [reflexivity|]. split; [reflexivity|]. split; [apply bulk_loads_from|].
  split; [vm_compute; reflexivity|]. split; [discriminate|].
  apply (bulk_selection_is_one_question bulk_page three_files bulk_loads).
  - reflexivity.
  - reflexivity.
  - apply bulk_loads_from.
  - vm_compute; reflexivity.
  - discriminate.
Defined.



(** ** Trimming, splitting and escaping *)

Lemma trimStart_first text c :
  first_char (trimStart text) = Some c → isWhiteSpace c = false.
Proof.
  induction text as [|c' rest IH]; [done|]. cbn [trimStart].
  destruct (isWhiteSpace c') eqn:Hc'; [done|]. cbn. by intros [= <-].
Qed.

Lemma trimStart_fixed text :
  (∀ c, first_char text = Some c → isWhiteSpace c = false) → trimStart text = text.
Proof.
  destruct text as [|c rest]; [done|]. intros H. cbn [trimStart]. by rewrite (H c).
Qed.

Lemma trimEnd_first text c :
  first_char text = Some c → isWhiteSpace c = false → first_char (trimEnd text) = Some c.
Proof.
  destruct text as [|c' rest]; [done|]. intros [= ->] Hc. cbn [trimEnd].
  destruct (trimEnd rest); [by rewrite Hc|done].
Qed.

Lemma trimEnd_last text c :
  last_char (trimEnd text) = Some c → isWhiteSpace c = false.
Proof.
  induction text as [|c' rest IH]; [done|]. cbn [trimEnd].
  destruct (trimEnd rest) as [|c1 kept] eqn:Hkept.
  - destruct (isWhiteSpace c') eqn:Hc'; [done|]. cbn. by intros [= <-].
  - rewrite last_char_cons by done. apply IH.
Qed.

Lemma trimEnd_fixed text :
  (∀ c, last_char text = Some c → isWhiteSpace c = false) → trimEnd text = text.
Proof.
  induction text as [|c rest IH]; [done|]. intros Hlast. cbn [trimEnd].
  destruct rest as [|c' rest'].
  - cbn. by rewrite (Hlast c).
  - rewrite IH; [done|]. intros c0 Hc0. apply Hlast. by rewrite last_char_cons.
Qed.

Lemma trim_trimmed text : trimmed (trim text).
Proof.
  unfold trim. split; [|apply trimEnd_last].
  intros c Hc. destruct (trimStart text) as [|c0 rest] eqn:Hstart; [done|].
  destruct (isWhiteSpace c0) eqn:Hc0.
  { by rewrite (trimStart_first text c0) in Hc0 by (by rewrite Hstart). }
  rewrite (trimEnd_first _ c0) in Hc by done. by injection Hc as <-.
Qed.

Lemma trimmed_trim text : trimmed text → trim text = text.
Proof.
  intros [Hfirst Hlast]. unfold trim. rewrite trimStart_fixed by done. by apply trimEnd_fixed.
Qed.

Lemma trim_idempotent text : trim (trim text) = trim text.
Proof. apply trimmed_trim, trim_trimmed. Qed.

Lemma split_whole separator text :
  contains separator text = false → split separator text = [text].
Proof.
  induction text as [|c rest IH]; [done|]. cbn [contains split].
  intros [Hc Hrest]%orb_false_iff. apply bool_decide_eq_false in Hc.
  rewrite decide_False by done. by rewrite IH.
Qed.

Lemma split_first separator head tail :
  contains separator head = false →
  split separator (head +:+ String separator tail) = head :: split separator tail.
Proof.
  induction head as [|c rest IH].
  - intros _. rewrite append_nil_l. cbn [split]. by rewrite decide_True.
  - cbn [contains]. intros [Hc Hrest]%orb_false_iff. apply bool_decide_eq_false in Hc.
    rewrite append_cons. cbn [split]. rewrite decide_False by done. by rewrite IH.
Qed.

(** X11.  [dataUrlToBase64] returns what stands between the first
    comma and the second, or the end when there is no second: the
    whole payload of a data URL whose payload has no comma, as Base64
    has none.  A text without a comma gives [undefined]. *)
Theorem dataUrlToBase64_takes_what_follows_the_comma header payload rest :
  contains "," header = false → contains "," payload = false →
  dataUrlToBase64 header = None ∧
  dataUrlToBase64 (header +:+ "," +:+ payload) = Some payload ∧
  dataUrlToBase64 (header +:+ "," +:+ payload +:+ "," +:+ rest) = Some payload.
Proof.
  intros Hheader Hpayload. unfold dataUrlToBase64. split_and!.
  - by rewrite split_whole.
  - change ("," +:+ payload) with (String "," payload).
    rewrite split_first by done. by rewrite split_whole.
  - change ("," +:+ payload +:+ "," +:+ rest) with (String "," (payload +:+ String "," rest)).
    rewrite split_first by done. by rewrite split_first.
Qed.

Lemma dataUrlToBase64_takes_what_follows_the_comma_witness :
  contains "," "data:image/png;base64" = false ∧ contains "," "iVBORw0KGgo=" = false ∧
  dataUrlToBase64 "data:image/png;base64" = None ∧
  dataUrlToBase64 ("data:image/png;base64" +:+ "," +:+ "iVBORw0KGgo=") = Some "iVBORw0KGgo=" ∧
  dataUrlToBase64 ("data:image/png;base64" +:+ "," +:+ "iVBORw0KGgo=" +:+ "," +:+ "rest")
  = Some "iVBORw0KGgo=".
Proof.
  split; [reflexivity|]. split; [reflexivity|].
  apply (dataUrlToBase64_takes_what_follows_the_comma
           "data:image/png;base64" "iVBORw0KGgo=" "rest"); reflexivity.
Defined.

Lemma contains_app c a b : contains c (a +:+ b) = contains c a || contains c b.
Proof.
  induction a as [|c' a IH]; [done|]. rewrite append_cons. cbn [contains].
  by rewrite IH, orb_assoc.
Qed.

Lemma serialized_plain text :
  contains "<" (serialized text) = false ∧ contains ">" (serialized text) = false.
Proof.
  induction text as [|c rest [IH1 IH2]]; [done|]. cbn [serialized].
  rewrite !contains_app, IH1, IH2, !orb_false_r.
  repeat case_decide; subst; try done.
  cbn [contains]. rewrite !orb_false_r.
  split; by apply bool_decide_eq_false.
Qed.

Lemma serialized_inj text : ∀ text', serialized text' = serialized text → text' = text.
Proof.
  induction text as [|c rest IH]; intros [|c' rest'].
  - done.
  - cbn [serialized]. repeat case_decide; done.
  - cbn [serialized]. repeat case_decide; done.
  - cbn [serialized].
    repeat case_decide; subst; rewrite ?append_cons, ?append_nil_l;
      intros Heq; simplify_eq; f_equal; by apply IH.
Qed.

(** X12.  What [escapeHtml] returns holds no angle bracket, so
    that it opens no tag where [updateTextSections] writes it into
    the solution section, and it tells the texts apart: two texts
    with the same escaped form are the same. *)
Theorem escapeHtml_leaves_no_markup text :
  contains "<" (QuestionModal.escapeHtml text) = false ∧
  contains ">" (QuestionModal.escapeHtml text) = false ∧
  ∀ text', QuestionModal.escapeHtml text' = QuestionModal.escapeHtml text → text' = text.
Proof.
  unfold QuestionModal.escapeHtml. split_and!; [apply serialized_plain..|].
  apply serialized_inj.
Qed.

(** ** The key form *)

(** X13.  The save button stores a key only when the field holds
    more than white space and local storage takes it; otherwise the
    page is left as it was, and an empty field is answered by the
    request for a valid key.  The key is stored without the white
    space around it: trimming it twice, as the handler and
    [saveAPIKey] do between them, changes nothing.  From then on
    [extract], given an image, and [solve] build their call with
    that key instead of falling back to their placeholder, and a
    page loaded later shows the key in the field, where saving it
    again stores the same key. *)
Theorem saved_key_is_trimmed room form s form0 :
  let key := trim (apiKeyInput form) in
  let s' := (saveButton_onclick room form s).1 in
  let form' := (saveButton_onclick room form s).2 in
  (key = "" ∨ room = false → s' = s) ∧
  (key = "" → apiStatus form' = Some KeyAskedFor) ∧
  (key ≠ "" → room = true →
     storedKey s' = Some key ∧ trimmed key ∧ apiStatus form' = Some KeySaved ∧
     (∀ images q, images ≠ [] →
        ∃ req, Client.extract_request (getAPIKey s') images q = Ret req ∧ apiKey req = key) ∧
     (∀ extractedText,
        ∃ req, Client.solve_request (getAPIKey s') extractedText = Ret req ∧ apiKey req = key) ∧
     apiKeyInput (initializeAPIKeyManagement s' form0) = key ∧
     (saveButton_onclick true (initializeAPIKeyManagement s' form0) s').1 = s').
Proof.
  cbn zeta. unfold saveButton_onclick. cbn zeta.
  destruct (trim (apiKeyInput form)) as [|c rest] eqn:Hkey.
  { split_and!; [done|done|]. by intros []. }
  split_and!.
  - intros [?| ->]; done.
  - done.
  - intros _ ->. cbn [fst snd]. unfold saveAPIKey.
    pose proof (trim_idempotent (apiKeyInput form)) as Hidem. rewrite Hkey in Hidem.
    rewrite Hidem. split_and!.
    + done.
    + rewrite <-Hkey. apply trim_trimmed.
    + done.
    + intros images q Himages. unfold Client.extract_request, getAPIKey. fields.
      destruct images; [done|]. by eexists.
    + intros extractedText. unfold Client.solve_request, getAPIKey. fields. by eexists.
    + unfold initializeAPIKeyManagement, getAPIKey. by fields.
    + unfold initializeAPIKeyManagement, getAPIKey. fields. cbn [apiKeyInput].
      rewrite Hidem. cbn [fst]. unfold saveAPIKey. by rewrite Hidem.
Qed.

(** ** The modal *)

Lemma init_sound : modal_sound QuestionModal.init.
Proof. split; cbn; done. Qed.

Lemma show_sound questionNumber images extractedText solvedText m :
  modal_sound (QuestionModal.show questionNumber images extractedText solvedText m).
Proof.
  unfold QuestionModal.show, QuestionModal.updateTextSections, QuestionModal.updateImages.
  cbn zeta.
  destruct extractedText as [[|c1 t1]|], solvedText as [[|c2 t2]|];
    split; cbn -[QuestionModal.escapeHtml]; try done;
    first [ by split
          | intros _; by eauto
          | intros _; by exists (String c1 t1)
          | intros _; by exists (String c2 t2) ].
Qed.

Lemma close_sound m : modal_sound m → modal_sound (QuestionModal.close m).
Proof.
  intros [H1 H2 H3 H4 H5 H6]. split; cbn; try done; split; done.
Qed.

Lemma modal_step_sound m ev : modal_sound m → modal_sound (QuestionModal.step m ev).
Proof.
  intros Hm. destruct ev as [q images e t| |onOverlay|key]; cbn [QuestionModal.step].
  - apply show_sound.
  - by apply close_sound.
  - destruct onOverlay; [by apply close_sound|done].
  - destruct (_ && _); [by apply close_sound|done].
Qed.

Lemma modal_run_sound evs : ∀ m, modal_sound m → modal_sound (QuestionModal.run m evs).
Proof.
  unfold QuestionModal.run.
  induction evs as [|ev evs IH]; intros m Hm; [done|]. cbn [foldl].
  by apply IH, modal_step_sound.
Qed.

(** X14.  Whatever is shown, clicked and typed: the overlay of the
    modal has the class [active] exactly when [isModalOpen] says so,
    the body is kept from scrolling exactly then, the empty note
    is never displayed together with a text section, and an open
    modal displays the note or a section. *)
Theorem modal_is_open_when_it_looks_open evs :
  let m := QuestionModal.run QuestionModal.init evs in
  QuestionModal.active m = QuestionModal.isModalOpen m ∧
  (QuestionModal.bodyOverflow m = Some "hidden" ↔ QuestionModal.isModalOpen m = true) ∧
  (QuestionModal.emptyState m = true →
   QuestionModal.extractedSection m = false ∧ QuestionModal.solvedSection m = false) ∧
  (QuestionModal.isModalOpen m = true →
   QuestionModal.emptyState m = true ∨ QuestionModal.extractedSection m = true ∨
   QuestionModal.solvedSection m = true).
Proof.
  cbn zeta. destruct (modal_run_sound evs _ init_sound) as [H1 H2 H3 H4 _ _].
  unfold QuestionModal.isModalOpen. done.
Qed.

(** ** What a solved question has stored *)
















(** ** Without a key *)

Lemma no_key_extract_start key images q :
  no_key key → ∃ text, Client.extract_start key images q = Client.SettledNow text.
Proof. intros [-> | ->]; by eexists. Qed.

Lemma no_key_solve_start key q extractedText :
  no_key key → ∃ text, Client.solve_start key q extractedText = Client.SettledNow text.
Proof. intros [-> | ->]; by eexists. Qed.

Lemma quiet_ext s s' :
  storedKey s' = storedKey s → gateLog s' = gateLog s → apiCallQueue s' = apiCallQueue s →
  loops s' = loops s → nextCall s' = nextCall s → quiet s → quiet s'.
Proof. unfold quiet. by intros -> -> -> -> ->. Qed.

Lemma enter_quiet q s : quiet s → quiet (enter q s).
Proof.
  intros Hs. pose proof Hs as (Hkey & _). unfold enter, processQuestion. cbn zeta.
  unfold getAPIKey. fields.
  destruct (no_key_extract_start (storedKey s)
              (getQuestionImages (storedImages s) q) q Hkey) as [text ->].
  by apply (quiet_ext s).
Qed.

Lemma fillBuffer_quiet s : quiet s → quiet (fillBuffer s).
Proof.
  intros Hs.
  destruct (fillBuffer_enters (λ _ s, quiet s) s) as [_ H]; [|done|done].
  intros _ q s' _ _. apply enter_quiet.
Qed.

Lemma resume_quiet m s : quiet s → quiet (processQuestion_resume m s).
Proof.
  intros Hs. pose proof Hs as (Hkey & _).
  unfold processQuestion_resume, processQuestion_try, processQuestion_catch.
  destruct (stage (cont m)) as [|prev].
  - unfold processQuestion_after_extract.
    destruct (value m) as [text|]; [|by apply fillBuffer_quiet, (quiet_ext s)].
    destruct (questionData s !! cq (cont m)) as [data|];
      [|by apply fillBuffer_quiet, (quiet_ext s)].
    cbn zeta. fields. case_bool_decide; [|by apply (quiet_ext s)].
    unfold getAPIKey. fields.
    destruct (no_key_solve_start (storedKey s) (cq (cont m)) text Hkey) as [fallback ->].
    by apply (quiet_ext s).
  - unfold processQuestion_after_solve.
    destruct (value m) as [text|]; [|by apply fillBuffer_quiet, (quiet_ext s)].
    destruct (questionData s !! cq (cont m)) as [data|];
      [|by apply fillBuffer_quiet, (quiet_ext s)].
    cbn zeta. fields. case_bool_decide; [|by apply (quiet_ext s)].
    by apply fillBuffer_quiet, (quiet_ext s).
Qed.

Lemma initializeProcessing_quiet s :
  no_key (storedKey s) → gateLog s = [] → loops s = [] → nextCall s = 0%nat →
  quiet (initializeProcessing s).
Proof.
  intros Hkey Hlog Hloops Hnext. unfold initializeProcessing. by apply fillBuffer_quiet.
Qed.

Lemma step_quiet s ev s' : keeps_no_key ev → quiet s → step s ev = Some s' → quiet s'.
Proof.
  intros Hev Hs Hstep. pose proof Hs as (Hkey & Hlog & Hqueue & Hloops & Hnext).
  by_event Hstep.
  - by apply (quiet_ext s).
  - apply resume_quiet. by apply (quiet_ext s).
  - by rewrite Hloops in Hwaits.
  - by rewrite Hloops in Hwaits.
  - unfold resetButton_onclick. by apply initializeProcessing_quiet.
  - split; [|done]. fields. by eapply Hev.
Qed.

(** X17.  As long as no key is stored ([null] or the empty text),
    nothing is handed to the rate limiter: along every run from a
    page loaded without a key in which local storage is written
    without one, no call is submitted, queued or out, and no drain
    loop is started. *)
Theorem no_key_no_call key images now evs s :
  no_key key → Forall keeps_no_key evs →
  run (load key images now) evs = Some s →
  gateLog s = [] ∧ apiCallQueue s = [] ∧ loops s = [] ∧ nextCall s = 0%nat.
Proof.
  intros Hkey Hevs Hrun.
  apply (run_invariant quiet keeps_no_key) in Hrun; [by destruct Hrun as (_ & ? & ? & ? & ?)|..].
  - intros ????. by apply step_quiet.
  - done.
  - unfold load, renderQuestionButtons. fields.
    destruct images; [done|]. by apply initializeProcessing_quiet.
Qed.

Lemma keyless_run_keeps_no_key :
  Forall keeps_no_key [EvMicrotask; EvMicrotask; EvStorage (Some "") [photo "1"]; EvResetClick].
Proof.
  unfold keeps_no_key.
  repeat first [by apply Forall_nil | apply Forall_cons; split];
    intros key images Heq; simplify_eq; by right.
Qed.

Lemma no_key_no_call_witness :
  let evs := [EvMicrotask; EvMicrotask; EvStorage (Some "") [photo "1"]; EvResetClick] in
  let s := after evs (load None [photo "1"] 1000000) in
  no_key None ∧ Forall keeps_no_key evs ∧
  run (load None [photo "1"] 1000000) evs = Some s ∧
  gateLog s = [] ∧ apiCallQueue s = [] ∧ loops s = [] ∧ nextCall s = 0%nat.
Proof.
  cbn zeta. split; [by left|]. split; [apply keyless_run_keeps_no_key|].
  split; [vm_compute; reflexivity|].
  apply (no_key_no_call None [photo "1"] 1000000
           [EvMicrotask; EvMicrotask; EvStorage (Some "") [photo "1"]; EvResetClick]).
  - by left.
  - apply keyless_run_keeps_no_key.
  - vm_compute; reflexivity.
Defined.

(** ** A page without images *)

Lemma fillBuffer_inert s : allQuestions s = [] → fillBuffer s = s.
Proof. intros Hall. unfold fillBuffer. rewrite Hall. by case_match. Qed.

Lemma step_inert s ev s' : inert s → step s ev = Some s' → inert s'.
Proof.
  intros (Hall & Hst & Hbuf & Hdata & Hlog & Hm & Hloops & Hqueue) Hstep.
  by_event Hstep; try done.
  - by rewrite Hm in Hmicro.
  - by rewrite Hloops in Hwaits.
  - by rewrite Hloops in Hwaits.
  - unfold resetButton_onclick, initializeProcessing. rewrite fillBuffer_inert by done.
    fields. rewrite Hall. done.
Qed.

(** X18.  A page loaded while no image is stored stays idle until
    it is loaded again: whatever is stored afterwards and however
    often the reset button is pressed, it has no question, no state,
    no data, nothing in its buffer, and it submits no call. *)
Theorem page_without_images_stays_idle key now evs s :
  run (load key [] now) evs = Some s →
  allQuestions s = [] ∧ questionStates s = ∅ ∧ processingBuffer s = ∅ ∧
  questionData s = ∅ ∧ gateLog s = [] ∧ microtasks s = [] ∧ loops s = [] ∧
  apiCallQueue s = [].
Proof.
  intros Hrun.
  apply (run_invariant inert (λ _, True)) in Hrun; [done|..].
  - intros ????. apply step_inert.
  - by apply Forall_forall.
  - done.
Qed.

Lemma page_without_images_stays_idle_witness :
  let evs := [EvStorage (Some "key") [photo "1"]; EvResetClick; EvClock 1000500] in
  let s := after evs (load (Some "key") [] 1000000) in
  run (load (Some "key") [] 1000000) evs = Some s ∧
  storedImages s = [photo "1"] ∧
  allQuestions s = [] ∧ questionStates s = ∅ ∧ processingBuffer s = ∅ ∧
  questionData s = ∅ ∧ gateLog s = [] ∧ microtasks s = [] ∧ loops s = [] ∧
  apiCallQueue s = [].
Proof.
  cbn zeta. split; [vm_compute; reflexivity|]. split; [vm_compute; reflexivity|].
  apply (page_without_images_stays_idle (Some "key") 1000000
           [EvStorage (Some "key") [photo "1"]; EvResetClick; EvClock 1000500]).
  vm_compute; reflexivity.
Defined.

(** ** How much is under way *)

Lemma run_live key images now evs s :
  reset_free evs → run (load key images now) evs = Some s → live s.
Proof.
  intros Hevs Hrun.
  apply (run_invariant live (λ ev, ev ≠ EvResetClick)) in Hrun; [done| |done|apply load_live].
  intros ????. by apply step_live.
Qed.

Lemma tracked_by_bound s conts :
  tracked_by s conts → (length conts ≤ size (processingBuffer s))%nat.
Proof.
  intros Ht. rewrite <-(length_fmap cq).
  rewrite <-(size_list_to_set (C := gset string)) by apply (tr_unique _ _ Ht).
  apply subseteq_size. intros q (k & -> & Hk)%elem_of_list_to_set%list_elem_of_fmap.
  apply (tr_active _ _ Ht).
  destruct (tracked_by_keys _ _ _ Ht Hk); eauto.
Qed.

(** X19.  While processing is not reset, the continuations that
    have settled, the calls in the queue and the calls out at the
    service are never more than [BUFFER_SIZE] together: the queue of
    the rate limiter stays that short however many questions the
    page has. *)
Theorem work_under_way_is_bounded key images now evs s :
  reset_free evs → run (load key images now) evs = Some s →
  (length (microtasks s) + length (apiCallQueue s) + length (in_flight s) ≤ BUFFER_SIZE)%nat.
Proof.
  intros Hevs Hrun. destruct (run_live _ _ _ _ _ Hevs Hrun) as [Hc _ [Ht _]].
  pose proof (tracked_by_bound _ _ Ht) as Hbound.
  pose proof (buffer_bounded _ Hc) as Hsize.
  unfold pending in Hbound. rewrite !length_app, !length_fmap in Hbound. lia.
Qed.

Lemma work_under_way_is_bounded_witness :
  let s := after two_calls four_questions in
  reset_free two_calls ∧ run four_questions two_calls = Some s ∧
  length (apiCallQueue s) = 2%nat ∧
  (length (microtasks s) + length (apiCallQueue s) + length (in_flight s) ≤ BUFFER_SIZE)%nat.
Proof.
  cbn zeta. split; [apply reset_free_two_calls|]. split; [vm_compute; reflexivity|].
  split; [vm_compute; reflexivity|].
  apply (work_under_way_is_bounded (Some "key")
           [photo "1"; photo "2"; photo "3"; photo "4"] 1000000 two_calls).
  - apply reset_free_two_calls.
  - vm_compute; reflexivity.
Defined.

(** ** Which questions are taken up first *)






(** ** How many calls a page asks for *)












(** ** Questions and their images *)






(** ** What is asked of the service *)






















(** ** What is solved is what was extracted *)









